(** * PriFi: equivocation protection, trustee handshake and roster parsing

    A shallow embedding of
    - [prifi-lib/dcnet/equivocation.go] (the equivocation guard),
    - [trustee/trusteeServer.go] (the trustee connection handler and the
      reader of the connection),
    - [sda/services/service.go] ([parseDescription], [mapIdentities]),
    - [crypto/qrsuite.go] (the parameters of the 512-bit group),
    together with the properties the specification states about them and
    further properties of the code: its error paths, what its calls leave
    unchanged, and how they compose.

    Part I holds the definitions, Part II the lemmas and theorems. *)

From Stdlib Require Import ZArith Lia List.
From Stdlib Require Import Strings.Byte Strings.Ascii.
From stdpp Require Import base tactics option list gmap strings pretty.

Local Open Scope Z_scope.

(** * Part I: definitions *)

(** ** Byte strings and fixed-width integer encodings *)

Abbreviation bytes := (list byte).

Definition Z_of_byte (b : byte) : Z := Z.of_N (Byte.to_N b).

Definition byte_of_Z (z : Z) : byte :=
  default x00 (Byte.of_N (Z.to_N (z mod 256))).

(** [big.Int.SetBytes]: the bytes read as a big-endian unsigned integer. *)
Definition be_decode (bs : bytes) : Z :=
  fold_left (fun acc b => acc * 256 + Z_of_byte b) bs 0.

(** A big-endian encoding left-padded with zeros to [len] bytes. *)
Fixpoint be_encode (len : nat) (z : Z) : bytes :=
  match len with
  | O => []
  | S n => be_encode n (z / 256) ++ [byte_of_Z z]
  end.

(** Go's [make([]byte, n)]: [n] zero bytes. *)
Definition zeros (n : nat) : bytes := repeat x00 n.

(** ** Results of a call

    A Go call returns, panics, or ends the process through [log.Fatal]. *)

Inductive outcome (A : Type) : Type :=
| Ret (a : A)
| Panic (msg : string)
| Fatal (msg : string).
Arguments Ret {A} a.
Arguments Panic {A} msg.
Arguments Fatal {A} msg.

(** ** The equivocation guard ([prifi-lib/dcnet/equivocation.go]) *)

Inductive ByteOrder : Set := BigEndian | LittleEndian.

(** Pointers to heap objects. *)
Abbreviation loc := nat.

(** [type EquivocationProtection struct]: [history] points to a mutable
    [kyber.Scalar], [randomness] to a [kyber.XOF] stream; the [suite] field is
    the suite the section below is parameterised by. *)
Record EquivocationProtection : Set := {
  history : loc;
  randomness : loc
}.

(** Modelled from the spec: [config.CryptoSuite] and the kyber scalar type are
    not part of the sources at hand.  Following section 3 and the note of
    section 4.2, a scalar is an integer reduced modulo the group order
    [order], with a fixed-width byte encoding defined by the suite; [SetBytes]
    reduces the bytes it is given modulo the group order.  The suite's
    extendable-output stream [XOF] and [random.Int], which draws an integer
    below a modulus from it, are left open. *)
Class Suite : Type := {
  order : Z;
  byteOrder : ByteOrder;
  XOF : Type;
  suite_XOF : bytes -> XOF;
  random_Int : Z -> XOF -> Z * XOF
}.

(** The Go standard library's SHA-256 and AES-GCM, left open as well. *)
Class StdCrypto : Type := {
  sha256_Sum256 : bytes -> bytes;
  gcm_Seal : bytes -> bytes -> bytes -> bytes -> bytes;
  gcm_Open : bytes -> bytes -> bytes -> bytes -> option bytes
}.

Section Equivocation.

Context {su : Suite} {lib : StdCrypto}.

(** [MarshalSize]: the bytes needed for the modulus. *)
Definition MarshalSize : nat := Z.to_nat ((Z.log2 order + 1 + 7) / 8).

Definition scalar_encode (v : Z) : bytes :=
  match byteOrder with
  | BigEndian => be_encode MarshalSize v
  | LittleEndian => rev (be_encode MarshalSize v)
  end.

Definition scalar_decode (bs : bytes) : Z :=
  be_decode (match byteOrder with BigEndian => bs | LittleEndian => rev bs end)
    mod order.

(** The memory of a participant: the scalars and streams allocated so far. *)
Record store : Type := {
  scalars : list Z;
  xofs : list XOF
}.

(** A Go function over that memory.  A panic keeps the memory as it was when
    the panic was raised. *)
Definition Prog (A : Type) : Type := store -> outcome A * store.

Definition pret {A} (a : A) : Prog A := fun s => (Ret a, s).

Definition pbind {A B} (m : Prog A) (k : A -> Prog B) : Prog B :=
  fun s =>
    match m s with
    | (Ret a, s') => k a s'
    | (Panic msg, s') => (Panic msg, s')
    | (Fatal msg, s') => (Fatal msg, s')
    end.

Definition panic {A} (msg : string) : Prog A := fun s => (Panic msg, s).

#[global] Instance Prog_ret : MRet Prog := @pret.
#[global] Instance Prog_bind : MBind Prog := fun A B k m => pbind m k.

(** *** kyber scalars: every operation writes its receiver and returns it *)

(** [suite.Scalar()]: a new scalar object, zero. *)
Definition Scalar : Prog loc :=
  fun s => (Ret (length (scalars s)),
            {| scalars := scalars s ++ [0]; xofs := xofs s |}).

Definition load (l : loc) : Prog Z :=
  fun s =>
    match scalars s !! l with
    | Some v => (Ret v, s)
    | None => (Panic "nil pointer dereference", s)
    end.

Definition write (l : loc) (v : Z) : Prog loc :=
  fun s =>
    match scalars s !! l with
    | Some _ => (Ret l, {| scalars := <[l := v]> (scalars s); xofs := xofs s |})
    | None => (Panic "nil pointer dereference", s)
    end.

Definition Zero (recv : loc) : Prog loc := write recv 0.
Definition One (recv : loc) : Prog loc := write recv 1.

Definition SetBytes (recv : loc) (data : bytes) : Prog loc :=
  write recv (scalar_decode data).

Definition Add (recv a b : loc) : Prog loc :=
  va ← load a; vb ← load b; write recv ((va + vb) mod order).

Definition Sub (recv a b : loc) : Prog loc :=
  va ← load a; vb ← load b; write recv ((va - vb) mod order).

Definition Mul (recv a b : loc) : Prog loc :=
  va ← load a; vb ← load b; write recv ((va * vb) mod order).

(** [Pick(rand)]: draws from the stream, which advances. *)
Definition Pick (recv : loc) (rand : loc) : Prog loc :=
  fun s =>
    match xofs s !! rand with
    | None => (Panic "nil pointer dereference", s)
    | Some r =>
        let '(v, r') := random_Int order r in
        write recv v {| scalars := scalars s; xofs := <[rand := r']> (xofs s) |}
    end.

(** [suite.XOF(key)]: a new stream object. *)
Definition new_XOF (key : bytes) : Prog loc :=
  fun s => (Ret (length (xofs s)),
            {| scalars := scalars s; xofs := xofs s ++ [suite_XOF key] |}).

Definition MarshalBinary (l : loc) : Prog bytes :=
  v ← load l; mret (scalar_encode v).

(** *** Go standard library *)

(** [aes.NewCipher]: only 16, 24 and 32 byte keys; the callers panic on the
    error.  [cipher.NewGCM] does not fail on an AES block. *)
Definition aes_key_size_ok (key : bytes) : bool :=
  (length key =? 16)%nat || (length key =? 24)%nat || (length key =? 32)%nat.

Definition aes_NewCipher (key : bytes) : Prog bytes :=
  if aes_key_size_ok key then mret key
  else panic "crypto/aes: invalid key size".

(** [make([]byte, n)] for a length computed at run time. *)
Definition make_bytes (n : Z) : Prog bytes :=
  if n <? 0 then panic "makeslice: len out of range"
  else mret (zeros (Z.to_nat n)).

Definition nonce12 : bytes := zeros 12.

(** Loops over slices. *)
Fixpoint for_each {A B} (f : A -> Prog B) (l : list A) : Prog (list B) :=
  match l with
  | [] => mret []
  | a :: l' => b ← f a; bs ← for_each f l'; mret (b :: bs)
  end.

Fixpoint sum_into (sum : loc) (qs : list loc) : Prog loc :=
  match qs with
  | [] => mret sum
  | p :: qs' => sum' ← Add sum sum p; sum_into sum' qs'
  end.

(** *** The methods *)

(** [NewEquivocation]; [randomKey] is what [rand.Read] delivered. *)
Definition NewEquivocation (randomKey : bytes) : Prog EquivocationProtection :=
  fresh ← Scalar;
  h ← One fresh;
  r ← new_XOF randomKey;
  mret {| history := h; randomness := r |}.

Definition randomScalar (e : EquivocationProtection) : Prog loc :=
  fresh ← Scalar; Pick fresh (randomness e).

Definition hashInGroup (data : bytes) : Prog loc :=
  fresh ← Scalar; SetBytes fresh data.

Definition UpdateHistory (e : EquivocationProtection) (data : bytes) : Prog unit :=
  historyB ← MarshalBinary (history e);
  let toBeHashed := zeros (length historyB + length data) in
  let newPayload := sha256_Sum256 toBeHashed in
  _ ← SetBytes (history e) newPayload;
  mret tt.

Definition ClientEncryptPayload (e : EquivocationProtection)
    (slotOwner : bool) (x : bytes) (p_j : list bytes) : Prog (bytes * bytes) :=
  q_j ← for_each hashInGroup p_j;
  fresh ← Scalar;
  sum ← Zero fresh;
  sum ← sum_into sum q_j;
  product ← Mul sum sum (history e);
  if negb slotOwner then
    kappa_i_bytes ← MarshalBinary product;
    mret (x, kappa_i_bytes)
  else
    k_i ← randomScalar e;
    k_i_bytes ← MarshalBinary k_i;
    block ← aes_NewCipher k_i_bytes;
    let x := gcm_Seal block nonce12 x [] in
    kappa_i ← Add k_i k_i product;
    kappa_i_bytes ← MarshalBinary kappa_i;
    mret (x, kappa_i_bytes).

Definition TrusteeGetContribution (e : EquivocationProtection)
    (s_i : list bytes) : Prog bytes :=
  q_i ← for_each hashInGroup s_i;
  fresh ← Scalar;
  sum ← Zero fresh;
  sum ← sum_into sum q_i;
  MarshalBinary sum.

(** The relay spells [hashInGroup] out as [e.suite.Scalar().SetBytes(v)]. *)
Definition RelayDecode (e : EquivocationProtection) (encryptedPayload : bytes)
    (trusteesContributions clientsContributions : list bytes) : Prog bytes :=
  trustee_kappa_j ← for_each hashInGroup trusteesContributions;
  client_kappa_i ← for_each hashInGroup clientsContributions;
  fresh ← Scalar;
  sumTrustees ← Zero fresh;
  sumTrustees ← sum_into sumTrustees trustee_kappa_j;
  fresh ← Scalar;
  sumClients ← Zero fresh;
  sumClients ← sum_into sumClients client_kappa_i;
  prod ← Mul sumTrustees sumTrustees (history e);
  k_i ← Sub sumClients sumClients prod;
  k_bytes ← MarshalBinary k_i;
  if (length k_bytes =? 0)%nat then mret []
  else
    block ← aes_NewCipher k_bytes;
    match gcm_Open block nonce12 encryptedPayload [] with
    | Some message => mret message
    | None => make_bytes (Z.of_nat (length encryptedPayload) - 16)
    end.

(** [UpdateHistory] as the specification words it, h <- H(h || data), to
    compare the method with. *)
Definition UpdateHistory_as_specified (e : EquivocationProtection)
    (data : bytes) : Prog unit :=
  historyB ← MarshalBinary (history e);
  _ ← SetBytes (history e) (sha256_Sum256 (historyB ++ data));
  mret tt.

(** *** What the methods compute, in closed form *)

Definition mk (hp : list Z) (xs : list XOF) : store :=
  {| scalars := hp; xofs := xs |}.

Definition runs {A} (m : Prog A) (s : store) (a : A) (s' : store) : Prop :=
  m s = (Ret a, s').

(** What the summing loop leaves in its accumulator. *)
Definition sum_mod (acc : Z) (vs : list Z) : Z :=
  fold_left (fun a v => (a + v) mod order) vs acc.

(** sigma: the scalar sum of the hashed pads. *)
Definition sigma (pads : list bytes) : Z :=
  sum_mod 0 (map scalar_decode pads).

Definition list_sum_Z (vs : list Z) : Z := fold_right Z.add 0 vs.

(** The client's result, in every case.  [h] is the value of the history. *)
Definition client_result (e : EquivocationProtection) (slotOwner : bool)
    (x : bytes) (p_j : list bytes) (hp : list Z) (xs : list XOF) (h : Z)
    : outcome (bytes * bytes) * store :=
  let product := (sigma p_j * h) mod order in
  let hp1 := (hp ++ map scalar_decode p_j) ++ [product] in
  if negb slotOwner then (Ret (x, scalar_encode product), mk hp1 xs)
  else
    match xs !! randomness e with
    | None => (Panic "nil pointer dereference", mk (hp1 ++ [0]) xs)
    | Some r =>
        let '(k_i, r') := random_Int order r in
        let xs' := <[randomness e := r']> xs in
        if aes_key_size_ok (scalar_encode k_i) then
          (Ret (gcm_Seal (scalar_encode k_i) nonce12 x [],
                scalar_encode ((k_i + product) mod order)),
           mk (hp1 ++ [(k_i + product) mod order]) xs')
        else (Panic "crypto/aes: invalid key size", mk (hp1 ++ [k_i]) xs')
    end.

(** The key the relay derives and its result, in every case. *)
Definition relay_key (h : Z) (trustees clients : list bytes) : Z :=
  (sigma clients - (sigma trustees * h) mod order) mod order.

Definition relay_result (encryptedPayload : bytes)
    (trustees clients : list bytes) (hp : list Z) (xs : list XOF) (h : Z)
    : outcome bytes * store :=
  let prod := (sigma trustees * h) mod order in
  let k_i := relay_key h trustees clients in
  let s' := mk ((((hp ++ map scalar_decode trustees) ++ map scalar_decode clients)
                   ++ [prod]) ++ [k_i]) xs in
  let k_bytes := scalar_encode k_i in
  if (length k_bytes =? 0)%nat then (Ret [], s')
  else if aes_key_size_ok k_bytes then
    match gcm_Open k_bytes nonce12 encryptedPayload [] with
    | Some message => (Ret message, s')
    | None =>
        if Z.of_nat (length encryptedPayload) - 16 <? 0
        then (Panic "makeslice: len out of range", s')
        else (Ret (zeros (Z.to_nat (Z.of_nat (length encryptedPayload) - 16))), s')
    end
  else (Panic "crypto/aes: invalid key size", s').

(** Every scalar in memory is reduced modulo the group order. *)
Definition reduced (s : store) : Prop :=
  Forall (fun v => 0 <= v < order) (scalars s).

(** *** An honest round

    [pad i j] is the pad client [i] and trustee [j] share; client [owner] owns
    the slot and sends [x]; client [i] otherwise sends [payload i]. *)
Definition client_pads (nTrustees : nat) (pad : nat -> nat -> bytes) (i : nat)
    : list bytes :=
  map (pad i) (seq 0 nTrustees).

Definition trustee_pads (nClients : nat) (pad : nat -> nat -> bytes) (j : nat)
    : list bytes :=
  map (fun i => pad i j) (seq 0 nClients).

(** What client [i]'s hashed pads sum to, as an integer. *)
Definition pad_sum (nTrustees : nat) (pad : nat -> nat -> bytes) (i : nat) : Z :=
  list_sum_Z (map (fun j => scalar_decode (pad i j)) (seq 0 nTrustees)).

Definition client_call (nTrustees : nat) (pad : nat -> nat -> bytes)
    (owner : nat) (x : bytes) (payload : nat -> bytes)
    (e : EquivocationProtection) (i : nat) : Prog (bytes * bytes) :=
  ClientEncryptPayload e (i =? owner)%nat
    (if (i =? owner)%nat then x else payload i) (client_pads nTrustees pad i).

End Equivocation.

(** ** The suite of quadratic residues ([crypto/qrsuite.go]) *)
Module qrsuite.

(** Modelled from the spec: the [SchnorrGroup] that [qrsuite] embeds and its
    [SetParams] are not part of the sources at hand; section 3 names the
    group a Schnorr group of quadratic residues: the residues modulo the
    prime [P] whose order is [Q], with [P] = [Q] * [R] + 1 and generator
    [G]. *)
Record SchnorrGroup : Set := {
  P : Z;
  Q : Z;
  R : Z;
  G : Z
}.

Definition SetParams (p q r g : Z) : SchnorrGroup :=
  {| P := p; Q := q; R := r; G := g |}.

Definition NewAES128SHA256QR512 : SchnorrGroup :=
  let p := 10198267722357351868598076141027380280417188309231803909918464305012113541414604537422741096561285049775792035177041672305646773132014126091142862443826263 in
  let q := 5099133861178675934299038070513690140208594154615901954959232152506056770707302268711370548280642524887896017588520836152823386566007063045571431221913131 in
  let r := 2 in
  let g := 4 in
  SetParams p q r g.

(** Exponentiation modulo [m] by squaring, to evaluate [G ^ Q] modulo [P]
    with. *)
Fixpoint pow_mod (b : Z) (e : positive) (m : Z) : Z :=
  match e with
  | xH => b mod m
  | xO e' => let r := pow_mod b e' m in (r * r) mod m
  | xI e' => let r := pow_mod b e' m in ((r * r) mod m * b) mod m
  end.

End qrsuite.

(** ** A small instance to run the model on

    The group order is the one of the Ed25519 scalars (little endian, 32
    bytes).  The stream, the hash and the authenticated cipher are stand-ins
    with the interface of the real ones: the stream is a counter, the hash
    reads its input as a number next to its length, and the cipher appends a
    16-byte tag derived from the key (it checks the tag on opening and hides
    nothing). *)
Module TestSuite.

Definition ed25519_order : Z :=
  2 ^ 252 + 27742317777372353535851937790883648493.

Definition counter_Int (m : Z) (r : Z) : Z * Z :=
  ((r * 6364136223846793005 + 1442695040888963407) mod m, r + 1).

Definition standin_Sum256 (data : bytes) : bytes :=
  be_encode 32 (be_decode data * 256 + Z.of_nat (length data)).

Fixpoint bytes_eqb (a b : bytes) : bool :=
  match a, b with
  | [], [] => true
  | x :: a', y :: b' => Byte.eqb x y && bytes_eqb a' b'
  | _, _ => false
  end.

Definition tag (key : bytes) : bytes := firstn 16 (key ++ zeros 16).

Definition standin_Seal (key nonce plaintext additional : bytes) : bytes :=
  plaintext ++ tag key.

Definition standin_Open (key nonce ciphertext additional : bytes)
    : option bytes :=
  if (length ciphertext <? 16)%nat then None
  else
    let n := (length ciphertext - 16)%nat in
    if bytes_eqb (skipn n ciphertext) (tag key)
    then Some (firstn n ciphertext) else None.

#[export] Instance suite : Suite := {|
  order := ed25519_order;
  byteOrder := LittleEndian;
  XOF := Z;
  suite_XOF := be_decode;
  random_Int := counter_Int
|}.

#[export] Instance lib : StdCrypto := {|
  sha256_Sum256 := standin_Sum256;
  gcm_Seal := standin_Seal;
  gcm_Open := standin_Open
|}.

(** A participant's state: history one, one stream. *)
Definition e0 : EquivocationProtection := {| history := 0; randomness := 0 |}.
Definition s0 : store := {| scalars := [1]; xofs := [7] |}.

(** The same with the history five. *)
Definition s5 : store := {| scalars := [5]; xofs := [7] |}.

(** The pads of the first end-to-end scenario's two clients and one trustee. *)
Definition pad0 (i j : nat) : bytes := [byte_of_Z (Z.of_nat (3 * i + j + 1))].

(** The same stand-ins over the scalars of the group of
    [qrsuite.NewAES128SHA256QR512], whose order takes 64 bytes. *)
Definition qr512_suite : Suite := {|
  order := qrsuite.Q qrsuite.NewAES128SHA256QR512;
  byteOrder := BigEndian;
  XOF := Z;
  suite_XOF := be_decode;
  random_Int := counter_Int
|}.

(** A state over that suite: history one, one stream. *)
Definition qr512_s0 : @store qr512_suite :=
  @Build_store qr512_suite [1] [7].

End TestSuite.

(** ** The trustee's connection handler ([trustee/trusteeServer.go]) *)

(** What [conn.Read] delivers: some bytes, or an error. *)
Inductive read_result : Type :=
| ReadOk (data : bytes)
| ReadErr.

(** What the handler does to the connection. *)
Inductive event : Type :=
| EvWrite (message : bytes)
| EvClose.

(** How the handler ends: it returns, it panics, or it stays in its
    [for { time.Sleep(...) }] loop. *)
Inductive ending : Type :=
| Returned
| Panicked (msg : string)
| SleepsForever.

(** The connection: what the peer still has to deliver and what was done to
    the connection so far. *)
Record conn : Type := {
  incoming : list read_result;
  done : list event
}.

Definition Handler (A : Type) : Type := conn -> (A + ending) * conn.

Definition hret {A} (a : A) : Handler A := fun c => (inl a, c).

Definition hbind {A B} (m : Handler A) (k : A -> Handler B) : Handler B :=
  fun c =>
    match m c with
    | (inl a, c') => k a c'
    | (inr stop, c') => (inr stop, c')
    end.

Definition stop {A} (how : ending) : Handler A := fun c => (inr how, c).

#[local] Instance Handler_ret : MRet Handler := @hret.
#[local] Instance Handler_bind : MBind Handler := fun A B k m => hbind m k.
#[local] Instance Handler_fmap : FMap Handler :=
  fun A B f m => hbind m (fun a => hret (f a)).

Definition not_nil {A} (o : option A) : bool :=
  match o with Some _ => true | None => false end.

(** The buffer after a read that delivered [data]: the bytes delivered, as
    many as fit, overwrite the start of the buffer, the rest of the buffer
    stays. *)
Definition read_into (buffer data : bytes) : bytes :=
  firstn (length buffer) data ++ skipn (length (firstn (length buffer) data)) buffer.

(** [conn.Read(buffer)], with [false] for an error.  A peer that has nothing
    more to deliver has closed the connection. *)
Definition conn_Read (buffer : bytes) : Handler (bytes * bool) :=
  fun c =>
    match incoming c with
    | ReadOk data :: rest =>
        (inl (read_into buffer data, true),
         {| incoming := rest; done := done c |})
    | ReadErr :: rest =>
        (inl (buffer, false), {| incoming := rest; done := done c |})
    | [] => (inl (buffer, false), c)
    end.

(** [conn.Write(message)], with [false] for an error.  Whether a write fails
    is up to the network: [fails] tells it from what was done to the
    connection so far and from the message.  A write that fails leaves no
    trace on the connection. *)
Definition conn_Write (fails : list event -> bytes -> bool) (message : bytes)
    : Handler bool :=
  fun c =>
    if fails (done c) message then (inl false, c)
    else (inl true, {| incoming := incoming c;
                       done := done c ++ [EvWrite message] |}).

(** [buffer[lo:hi]] *)
Definition slice (buffer : bytes) (lo hi : Z) : Handler bytes :=
  if (0 <=? lo) && (lo <=? hi) && (hi <=? Z.of_nat (length buffer))
  then hret (firstn (Z.to_nat (hi - lo)) (skipn (Z.to_nat lo) buffer))
  else stop (Panicked "slice bounds out of range").

(** [binary.BigEndian.Uint32] and [PutUint32] *)
Definition Uint32 (b : bytes) : Z := be_decode (firstn 4 b).
Definition PutUint32 (v : Z) : bytes := be_encode 4 v.

(** [copy(dst[off:off+len(src)], src)] *)
Definition blit (dst : bytes) (off : nat) (src : bytes) : bytes :=
  firstn off dst ++ src ++ skipn (off + length src) dst.

(** The answer to a shuffle request: three length-prefixed fields. *)
Definition compose_message (base2Bytes ephPublicKeys2Bytes proof : bytes)
    : bytes :=
  let lb := length base2Bytes in
  let lk := length ephPublicKeys2Bytes in
  let message := zeros (12 + lb + lk + length proof) in
  let message := blit message 0 (PutUint32 (Z.of_nat lb)) in
  let message := blit message (4 + lb) (PutUint32 (Z.of_nat lk)) in
  let message := blit message (8 + lb + lk) (PutUint32 (Z.of_nat (length proof))) in
  let message := blit message 4 base2Bytes in
  let message := blit message (8 + lb) ephPublicKeys2Bytes in
  blit message (12 + lb + lk) proof.

(** What the handler uses from [config] and [prifinet], which are not part of
    the sources at hand, and from the suite; and the network it writes to:
    [Write_fails] tells which writes on the connection fail. *)
Class TrusteeEnv : Type := {
  Write_fails : list event -> bytes -> bool;
  LLD_PROTOCOL_VERSION : Z;
  Point : Type;
  Point_Base : Point;
  Point_Mul : Point -> Z -> Point;
  Point_UnmarshalBinary : bytes -> option Point;
  Point_MarshalBinary : Point -> option bytes;
  Secret_Pick : string -> Z;
  TellPublicKey : Z -> Point -> Handler unit;
  UnMarshalPublicKeyArrayFromConnection : Handler (list Point);
  UnMarshalPublicKeyArrayFromByteArray : bytes -> Handler (list Point);
  MarshalPublicKeyArrayToByteArray : list Point -> bytes
}.

Section Trustee.

Context {env : TrusteeEnv}.

Record TrusteeState : Type := {
  Name : string;
  TrusteeId : Z;
  nClients : Z;
  nTrustees : Z;
  PayloadLength : Z;
  privateKey : Z;
  PublicKey : Point;
  ClientPublicKeys : list (option Point);
  sharedSecrets : list (option Point)
}.

(** [initiateTrusteeState].  Its two [make]s are taken to succeed: they take
    the number of clients that the first frame announced, and the Go runtime
    ends the process, without running what was deferred, when there is no
    memory for that many. *)
Definition initiateTrusteeState (trusteeId nClients nTrustees payloadLength : Z)
    : TrusteeState :=
  let name := ("Trustee-" +:+ pretty trusteeId)%string in
  let priv := Secret_Pick name in
  {| Name := name;
     TrusteeId := trusteeId;
     nClients := nClients;
     nTrustees := nTrustees;
     PayloadLength := payloadLength;
     privateKey := priv;
     PublicKey := Point_Mul Point_Base priv;
     ClientPublicKeys := replicate (Z.to_nat nClients) None;
     sharedSecrets := replicate (Z.to_nat nClients) None |}.

(** The loop that stores the clients' keys and the shared secrets. *)
Fixpoint store_keys (st : TrusteeState) (i : nat) (keys : list Point)
    : Handler TrusteeState :=
  match keys with
  | [] => hret st
  | key :: keys' =>
      if (i <? length (ClientPublicKeys st))%nat then
        store_keys
          {| Name := Name st; TrusteeId := TrusteeId st;
             nClients := nClients st; nTrustees := nTrustees st;
             PayloadLength := PayloadLength st;
             privateKey := privateKey st; PublicKey := PublicKey st;
             ClientPublicKeys := <[i := Some key]> (ClientPublicKeys st);
             sharedSecrets :=
               <[i := Some (Point_Mul key (privateKey st))]> (sharedSecrets st) |}
          (S i) keys'
      else stop (Panicked "index out of range")
  end.

(** The body of [handleConnection], up to its [defer], in two parts.  First
    the version check and the exchange of keys (lines 100 to 156): it hands on
    the buffer, which the second read reuses. *)
Definition exchange_keys : Handler (bytes * TrusteeState) :=
  let buffer := zeros 1024 in
  '(buffer, ok) ← conn_Read buffer;
  if negb ok then stop Returned else
  version_bytes ← slice buffer 0 4;
  let version := Uint32 version_bytes in
  if negb (version =? LLD_PROTOCOL_VERSION) then stop Returned else
  cellSize ← Uint32 <$> slice buffer 4 8;
  nClients ← Uint32 <$> slice buffer 8 12;
  nTrustees ← Uint32 <$> slice buffer 12 16;
  trusteeId ← Uint32 <$> slice buffer 16 20;
  let trusteeState := initiateTrusteeState trusteeId nClients nTrustees cellSize in
  _ ← TellPublicKey LLD_PROTOCOL_VERSION (PublicKey trusteeState);
  clientsPublicKeys ← UnMarshalPublicKeyArrayFromConnection;
  trusteeState ← store_keys trusteeState 0 clientsPublicKeys;
  if negb (forallb not_nil (ClientPublicKeys trusteeState)) then
    stop (Panicked "Trustee : didn't get the public key from client")
  else mret (buffer, trusteeState).

(** Then the shuffle (lines 158 to 233).  When the write of the answer
    fails, the argument of [panic] is ["Write error:" + err4.Error()], and
    [err4], the error of the marshalling that went well, is nil: the call of
    [Error] on it is what panics. *)
Definition answer_shuffle (buffer : bytes) : Handler unit :=
  '(buffer, ok) ← conn_Read buffer;
  if negb ok then stop (Panicked "Err") else
  baseSize ← Uint32 <$> slice buffer 0 4;
  keysSize ← Uint32 <$> slice buffer (4 + baseSize) (8 + baseSize);
  baseBytes ← slice buffer 4 (4 + baseSize);
  keysBytes ← slice buffer (8 + baseSize) (8 + baseSize + keysSize);
  match Point_UnmarshalBinary baseBytes with
  | None => stop (Panicked ">>>>  Relay : can't unmarshal client key ! ")
  | Some base =>
      ephPublicKeys ← UnMarshalPublicKeyArrayFromByteArray keysBytes;
      let base2 := base in
      let ephPublicKeys2 := ephPublicKeys in
      let proof := zeros 50 in
      let ephPublicKeys2Bytes := MarshalPublicKeyArrayToByteArray ephPublicKeys2 in
      match Point_MarshalBinary base2 with
      | None => stop (Panicked "Marshall error:")
      | Some base2Bytes =>
          let message := compose_message base2Bytes ephPublicKeys2Bytes proof in
          ok ← conn_Write Write_fails message;
          if negb ok then
            stop (Panicked "invalid memory address or nil pointer dereference")
          else stop SleepsForever
      end
  end.

Definition handleConnection_body : Handler unit :=
  '(buffer, trusteeState) ← exchange_keys;
  answer_shuffle buffer.

(** [handleConnection]: [defer conn.Close()] runs when the body returns or
    panics. *)
Definition handleConnection (c : conn) : ending * conn :=
  match handleConnection_body c with
  | (inl _, c') =>
      (Returned, {| incoming := incoming c'; done := done c' ++ [EvClose] |})
  | (inr SleepsForever, c') => (SleepsForever, c')
  | (inr how, c') =>
      (how, {| incoming := incoming c'; done := done c' ++ [EvClose] |})
  end.

(** *** The reader of the connection ([trusteeConnRead]) *)

(** The error of a read: [io.EOF] or another one, with its text. *)
Inductive read_error : Type :=
| EOF
| OtherError (text : string).

(** What one call of [Read] delivers: some bytes, which may be none, and an
    error, which may be nil. *)
Record read_call : Type := {
  delivered : bytes;
  err : option read_error
}.

(** What the reader does: it prints a line, sends a buffer on
    [incomingStream], or closes the connection. *)
Inductive reader_event : Type :=
| RvPrintln (line : string)
| RvSend (buf : bytes)
| RvClose.

(** Where the reader is when the reads at hand are used up: in its next
    [Read], or it has returned or panicked. *)
Inductive reader_state : Type :=
| StillReading
| ReaderReturned
| ReaderPanicked (msg : string).

(** [trusteeConnRead] over the calls of [Read] in the order they are made;
    every buffer it sends is taken from the channel.  A read with no bytes
    and a nil error makes [err.Error()] dereference nil. *)
Fixpoint trusteeConnRead (state : TrusteeState) (reads : list read_call)
    : list reader_event * reader_state :=
  match reads with
  | [] => ([], StillReading)
  | r :: reads' =>
      let buf := read_into (zeros 512) (delivered r) in
      let n := length (firstn 512 (delivered r)) in
      if (n =? 0)%nat then
        match err r with
        | Some EOF =>
            let '(events, how) := trusteeConnRead state reads' in
            (RvPrintln ("[read EOF, trustee " +:+ pretty (TrusteeId state) +:+ "]")
               :: events, how)
        | Some (OtherError text) =>
            ([RvPrintln ("[read error, trustee " +:+ pretty (TrusteeId state)
                         +:+ " (" +:+ text +:+ ")]");
              RvClose], ReaderReturned)
        | None => ([], ReaderPanicked "nil pointer dereference")
        end
      else
        let '(events, how) := trusteeConnRead state reads' in
        (RvSend buf :: events, how)
  end.

End Trustee.

(** ** A small instance to run the handler on

    The group is the group of quadratic residues modulo 23 = 2 * 11 + 1 with
    generator 4, a Schnorr group shaped like the ones of [crypto/qrsuite.go];
    a point is marshalled as one byte. *)
Module TestTrustee.

Definition qr_Mul (p : Z) (s : Z) : Z := (p ^ s) mod 23.

Definition qr_UnmarshalBinary (b : bytes) : option Z :=
  match b with
  | [v] =>
      let p := Z_of_byte v in
      if (0 <? p) && (p <? 23) && (p ^ 11 mod 23 =? 1) then Some p else None
  | _ => None
  end.

Definition qr_MarshalBinary (p : Z) : option bytes := Some [byte_of_Z p].

Definition name_Pick (name : string) : Z :=
  (Z.of_nat (String.length name) * 7 + 5) mod 11.

(** Two networks: one on which every write succeeds, and one that breaks
    once a first message was written. *)
Definition writes_succeed (out : list event) (message : bytes) : bool := false.

Definition breaks_after_first_write (out : list event) (message : bytes)
    : bool :=
  (1 <=? length out)%nat.

(** Modelled from the spec: [prifinet.TellPublicKey] is not part of the
    sources at hand; section 6 gives the public-key announcement as
    [u32 version][u32 key_len][key_bytes].  It is taken to panic when the
    write fails. *)
Definition tell_public_key (fails : list event -> bytes -> bool)
    (version : Z) (publicKey : Z) : Handler unit :=
  ok ← conn_Write fails
         (PutUint32 version ++ PutUint32 1 ++ [byte_of_Z publicKey]);
  if negb ok then stop (Panicked "write error") else hret tt.

Fixpoint parse_key_vector (count : nat) (b : bytes) : option (list Z) :=
  match count with
  | O => Some []
  | S n =>
      let len := Z.to_nat (Uint32 b) in
      match qr_UnmarshalBinary (firstn len (skipn 4 b)) with
      | None => None
      | Some key => cons key <$> parse_key_vector n (skipn (4 + len) b)
      end
  end.

(** Modelled from the spec: [prifinet.UnMarshalPublicKeyArrayFromConnection]
    is not part of the sources at hand; section 6 gives the public-key vector
    as [u32 count] followed by [count] repetitions of
    [u32 key_len][key_bytes]. *)
Definition keys_from_connection : Handler (list Z) :=
  '(buffer, ok) ← conn_Read (zeros 1024);
  if negb ok then stop (Panicked "read error") else
  match parse_key_vector (Z.to_nat (Uint32 buffer)) (skipn 4 buffer) with
  | Some keys => hret keys
  | None => stop (Panicked "can't unmarshal client key")
  end.

(** Modelled from the spec: [prifinet.UnMarshalPublicKeyArrayFromByteArray]
    and [prifinet.MarshalPublicKeyArrayToByteArray] are not part of the
    sources at hand; section 4.3 gives the keys of a shuffle frame as
    concatenated point encodings. *)
Definition keys_from_bytes (b : bytes) : Handler (list Z) :=
  match mapM (fun v => qr_UnmarshalBinary [v]) b with
  | Some keys => hret keys
  | None => stop (Panicked "can't unmarshal ephemeral key")
  end.

Definition keys_to_bytes (keys : list Z) : bytes := map byte_of_Z keys.

#[export] Instance env : TrusteeEnv := {|
  Write_fails := writes_succeed;
  LLD_PROTOCOL_VERSION := 1;
  Point := Z;
  Point_Base := 4;
  Point_Mul := qr_Mul;
  Point_UnmarshalBinary := qr_UnmarshalBinary;
  Point_MarshalBinary := qr_MarshalBinary;
  Secret_Pick := name_Pick;
  TellPublicKey := tell_public_key writes_succeed;
  UnMarshalPublicKeyArrayFromConnection := keys_from_connection;
  UnMarshalPublicKeyArrayFromByteArray := keys_from_bytes;
  MarshalPublicKeyArrayToByteArray := keys_to_bytes
|}.

(** The same over the network that breaks once the trustee's public key was
    written. *)
Definition env_broken : TrusteeEnv := {|
  Write_fails := breaks_after_first_write;
  LLD_PROTOCOL_VERSION := 1;
  Point := Z;
  Point_Base := 4;
  Point_Mul := qr_Mul;
  Point_UnmarshalBinary := qr_UnmarshalBinary;
  Point_MarshalBinary := qr_MarshalBinary;
  Secret_Pick := name_Pick;
  TellPublicKey := tell_public_key breaks_after_first_write;
  UnMarshalPublicKeyArrayFromConnection := keys_from_connection;
  UnMarshalPublicKeyArrayFromByteArray := keys_from_bytes;
  MarshalPublicKeyArrayToByteArray := keys_to_bytes
|}.

(** The handshake of trustee 0 for two clients and one trustee, cells of four
    bytes; the two clients' keys; a shuffle request with base 4 and the
    ephemeral keys 16 and 8. *)
Definition hello (version : Z) : bytes :=
  PutUint32 version ++ PutUint32 4 ++ PutUint32 2 ++ PutUint32 1 ++ PutUint32 0.

Definition client_keys : bytes :=
  PutUint32 2 ++ PutUint32 1 ++ [byte_of_Z 18] ++ PutUint32 1 ++ [byte_of_Z 12].

Definition shuffle_request : bytes :=
  PutUint32 1 ++ [byte_of_Z 4] ++ PutUint32 2 ++ [byte_of_Z 16; byte_of_Z 8].

Definition session : conn :=
  {| incoming := [ReadOk (hello 1); ReadOk client_keys; ReadOk shuffle_request];
     done := [] |}.

End TestTrustee.

(** ** Roles from the group file ([sda/services/service.go]) *)

Inductive PriFiRole : Set := Relay | Client | Trustee.

Record PriFiIdentity : Set := {
  Role : PriFiRole;
  Id : Z
}.

(** A value together with Go's [error]. *)
Inductive result (A : Type) : Type :=
| Ok (a : A)
| Error (msg : string).
Arguments Ok {A} a.
Arguments Error {A} msg.

(** [strings.Split(s, " ")]: the pieces between the spaces, one more than
    there are spaces. *)
Fixpoint Split (s : string) : list string :=
  match s with
  | EmptyString => [EmptyString]
  | String c s' =>
      if Ascii.eqb c " "%char then EmptyString :: Split s'
      else
        match Split s' with
        | [] => [String c EmptyString]
        | piece :: pieces => String c piece :: pieces
        end
  end.

(** [strconv.Atoi] on a 64-bit platform: an optional sign, then one or more
    decimal digits, and a value that fits an [int]. *)
Definition digit (c : Ascii.ascii) : option Z :=
  let d := Z.of_nat (Ascii.nat_of_ascii c) - 48 in
  if (0 <=? d) && (d <=? 9) then Some d else None.

Fixpoint digits (acc : Z) (s : string) : option Z :=
  match s with
  | EmptyString => Some acc
  | String c s' =>
      match digit c with
      | Some d => digits (acc * 10 + d) s'
      | None => None
      end
  end.

Definition Atoi (s : string) : option Z :=
  match s with
  | EmptyString => None
  | String c rest =>
      let neg := Ascii.eqb c "-"%char in
      let unsigned := if neg || Ascii.eqb c "+"%char then rest else s in
      match unsigned with
      | EmptyString => None
      | _ =>
          match digits 0 unsigned with
          | None => None
          | Some n =>
              let v := if neg then - n else n in
              if (- 2 ^ 63 <=? v) && (v <=? 2 ^ 63 - 1) then Some v else None
          end
      end
  end.

(** [parseDescription] *)
Definition parseDescription (description : string) : result PriFiIdentity :=
  let desc := Split description in
  if (length desc =? 1)%nat && String.eqb (nth 0 desc EmptyString) "relay" then
    Ok {| Role := Relay; Id := 0 |}
  else if (length desc =? 2)%nat then
    match Atoi (nth 1 desc EmptyString) with
    | None => Error "Unable to parse id:"
    | Some id =>
        if String.eqb (nth 0 desc EmptyString) "client" then
          Ok {| Role := Client; Id := id |}
        else if String.eqb (nth 0 desc EmptyString) "trustee" then
          Ok {| Role := Trustee; Id := id |}
        else Error "Invalid role."
    end
  else Error "Invalid description.".

(** A node of the roster and the group read from the group file. *)
Record ServerIdentity : Set := {
  Address : string;
  Public : Z
}.

Record Group : Type := {
  Roster : list ServerIdentity;
  GetDescription : ServerIdentity -> string
}.

(** The first loop of [mapIdentities]: nodes whose description does not parse
    are skipped; a later node replaces an earlier one with the same address. *)
Definition assign_role (group : Group)
    (acc : gmap string PriFiIdentity * ServerIdentity) (si : ServerIdentity)
    : gmap string PriFiIdentity * ServerIdentity :=
  let '(m, relay) := acc in
  match parseDescription (GetDescription group si) with
  | Error _ => (m, relay)
  | Ok id =>
      (<[Address si := id]> m,
       match Role id with Relay => si | _ => relay end)
  end.

Definition assign_roles (group : Group)
    : gmap string PriFiIdentity * ServerIdentity :=
  fold_left (assign_role group) (Roster group)
    (∅, {| Address := EmptyString; Public := 0 |}).

(** The second loop: [t], [c] and [r]. *)
Definition count_role (acc : Z * Z * Z) (v : PriFiIdentity) : Z * Z * Z :=
  let '(t, c, r) := acc in
  match Role v with
  | Relay => (t, c, r + 1)
  | Client => (t, c + 1, r)
  | Trustee => (t + 1, c, r)
  end.

Definition count_roles (m : gmap string PriFiIdentity) : Z * Z * Z :=
  fold_left count_role (snd <$> map_to_list m) (0, 0, 0).

Definition mapIdentities (group : Group)
    : outcome (gmap string PriFiIdentity * ServerIdentity) :=
  let '(m, relay) := assign_roles group in
  let '(t, c, r) := count_roles m in
  if negb ((0 <? t) && (0 <? c) && (r =? 1)) then
    Fatal "Config file does not contain exactly one relay and at least one trustee and client."
  else Ret (m, relay).

(** *** What the claims are stated with *)

Fixpoint join (pieces : list string) : string :=
  match pieces with
  | [] => EmptyString
  | [piece] => piece
  | piece :: pieces' => piece +:+ " " +:+ join pieces'
  end.

Fixpoint no_space (s : string) : bool :=
  match s with
  | EmptyString => true
  | String c s' => negb (Ascii.eqb c " "%char) && no_space s'
  end.

(** What [parseDescription] accepts, and as what. *)
Definition accepted (description : string) (id : PriFiIdentity) : Prop :=
  (description = "relay" /\ id = {| Role := Relay; Id := 0 |})
  \/ exists token n,
       Atoi token = Some n
       /\ ((description = "client " +:+ token
            /\ id = {| Role := Client; Id := n |})
           \/ (description = "trustee " +:+ token
               /\ id = {| Role := Trustee; Id := n |})).

#[local] Instance PriFiRole_eq_dec : EqDecision PriFiRole.
Proof. solve_decision. Defined.

(** How many addresses the role assignment gives a role to. *)
Definition role_count (role : PriFiRole) (m : gmap string PriFiIdentity) : nat :=
  length (filter (fun v => Role v = role) (snd <$> map_to_list m)).

(** Node [si] gives its address the role [id]: its description parses to
    [id] and no later node of the roster with the same address has a
    description that parses. *)
Definition gives_role (group : Group) (si : ServerIdentity) (id : PriFiIdentity)
    : Prop :=
  exists before after,
    Roster group = before ++ si :: after
    /\ parseDescription (GetDescription group si) = Ok id
    /\ forall sj, In sj after -> Address sj = Address si ->
         exists msg, parseDescription (GetDescription group sj) = Error msg.

(** ** Group files to run [mapIdentities] on *)
Module TestRoster.

Definition node (address : string) : ServerIdentity :=
  {| Address := address; Public := 0 |}.

(** The description of a node is looked up by its address. *)
Definition group_of (nodes : list (string * string)) : Group :=
  {| Roster := (fun nd => node (fst nd)) <$> nodes;
     GetDescription := fun si =>
       match list_find (fun nd => fst nd = Address si) nodes with
       | Some (_, nd) => snd nd
       | None => EmptyString
       end |}.

(** A group file in which two nodes share the address 10.0.0.5:7000; the
    description of a node is looked up by its public key. *)
Definition shared_address : Group :=
  {| Roster := [ {| Address := "10.0.0.1:7000"; Public := 1 |};
                 {| Address := "10.0.0.5:7000"; Public := 2 |};
                 {| Address := "10.0.0.5:7000"; Public := 3 |};
                 {| Address := "10.0.0.3:7000"; Public := 4 |} ];
     GetDescription := fun si =>
       if Public si =? 1 then "relay"
       else if Public si =? 2 then "relay"
       else if Public si =? 3 then "client 0"
       else "trustee 0" |}.

End TestRoster.

(** * Part II: lemmas and theorems *)

(** ** Byte strings *)

Lemma Z_of_byte_range b : 0 <= Z_of_byte b < 256.
Proof.
  unfold Z_of_byte. pose proof (Byte.to_N_bounded b) as Hb. lia.
Qed.

Lemma Z_of_byte_of_Z z : Z_of_byte (byte_of_Z z) = z mod 256.
Proof.
  unfold Z_of_byte, byte_of_Z.
  assert (Hr : 0 <= z mod 256 < 256) by (apply Z.mod_pos_bound; lia).
  destruct (Byte.of_N (Z.to_N (z mod 256))) as [b|] eqn:Hb.
  - apply Byte.to_of_N in Hb. simpl. rewrite Hb. lia.
  - apply Byte.of_N_None_iff in Hb. lia.
Qed.

Lemma be_decode_app bs b : be_decode (bs ++ [b]) = be_decode bs * 256 + Z_of_byte b.
Proof. unfold be_decode. rewrite fold_left_app. reflexivity. Qed.

Lemma length_be_encode len z : length (be_encode len z) = len.
Proof.
  revert z. induction len as [|n IH]; intros z; simpl; [reflexivity|].
  rewrite length_app, IH. simpl. lia.
Qed.

Lemma be_decode_encode len z :
  be_decode (be_encode len z) = z mod 256 ^ Z.of_nat len.
Proof.
  revert z. induction len as [|n IH]; intros z.
  - simpl. rewrite Z.mod_1_r. reflexivity.
  - cbn [be_encode]. rewrite be_decode_app, IH, Z_of_byte_of_Z.
    rewrite Nat2Z.inj_succ, Z.pow_succ_r by lia.
    assert (Hp : 0 < 256 ^ Z.of_nat n) by (apply Z.pow_pos_nonneg; lia).
    rewrite Z.rem_mul_r by lia. lia.
Qed.

Lemma length_zeros n : length (zeros n) = n.
Proof. apply repeat_length. Qed.

Lemma zeros_app n m : zeros (n + m) = zeros n ++ zeros m.
Proof. apply repeat_app. Qed.

(** ** The equivocation guard *)

Section EquivocationFacts.

Context {su : Suite} {lib : StdCrypto}.

(** *** Encoding of scalars *)

Hypothesis order_gt_1 : 1 < order.

Lemma order_le_width : order <= 256 ^ Z.of_nat MarshalSize.
Proof using order_gt_1.
  unfold MarshalSize.
  pose proof (Z.log2_nonneg order) as Hl.
  assert (Hlt : order < 2 ^ (Z.log2 order + 1)).
  { replace (Z.log2 order + 1) with (Z.succ (Z.log2 order)) by lia.
    apply Z.log2_spec. lia. }
  set (n := (Z.log2 order + 1 + 7) / 8) in *.
  assert (Hn : Z.log2 order + 1 <= 8 * n).
  { unfold n. pose proof (Z.div_mod (Z.log2 order + 1 + 7) 8 ltac:(lia)).
    pose proof (Z.mod_pos_bound (Z.log2 order + 1 + 7) 8 ltac:(lia)). lia. }
  rewrite Z2Nat.id by lia.
  change 256 with (2 ^ 8). rewrite <- Z.pow_mul_r by lia.
  assert (2 ^ (Z.log2 order + 1) <= 2 ^ (8 * n)) by (apply Z.pow_le_mono_r; lia).
  lia.
Qed.

Lemma MarshalSize_pos : (0 < MarshalSize)%nat.
Proof using order_gt_1.
  pose proof order_le_width as Hw.
  destruct MarshalSize; [simpl in Hw; lia | lia].
Qed.

Lemma length_scalar_encode v : length (scalar_encode v) = MarshalSize.
Proof.
  unfold scalar_encode. destruct byteOrder.
  - apply length_be_encode.
  - rewrite length_rev. apply length_be_encode.
Qed.

Lemma scalar_decode_encode v :
  0 <= v < order -> scalar_decode (scalar_encode v) = v.
Proof using order_gt_1.
  intros Hv. pose proof order_le_width as Hw.
  unfold scalar_decode, scalar_encode.
  destruct byteOrder; rewrite ?rev_involutive, be_decode_encode;
    rewrite (Z.mod_small v (256 ^ _)) by lia; apply Z.mod_small; lia.
Qed.

Lemma scalar_decode_range bs : 0 <= scalar_decode bs < order.
Proof using order_gt_1. unfold scalar_decode. apply Z.mod_pos_bound. lia. Qed.

(** *** Running programs *)

Lemma runs_ret {A} (a : A) s : runs (mret a) s a s.
Proof. reflexivity. Qed.

Lemma runs_bind {A B} (m : Prog A) (k : A -> Prog B) s a s1 b s2 :
  runs m s a s1 -> runs (k a) s1 b s2 -> runs (m ≫= k) s b s2.
Proof.
  unfold runs, mbind, Prog_bind, pbind. intros -> Hk. exact Hk.
Qed.

Lemma runs_Scalar hp xs :
  runs Scalar (mk hp xs) (length hp) (mk (hp ++ [0]) xs).
Proof. reflexivity. Qed.

Lemma runs_load (hp : list Z) xs (l : loc) v :
  hp !! l = Some v -> runs (load l) (mk hp xs) v (mk hp xs).
Proof. intros Hl. unfold runs, load, mk. cbn. rewrite Hl. reflexivity. Qed.

Lemma runs_write (hp : list Z) xs (l : loc) v :
  (l < length hp)%nat -> runs (write l v) (mk hp xs) l (mk (<[l := v]> hp) xs).
Proof.
  intros Hl. unfold runs, write, mk. cbn.
  destruct (lookup_lt_is_Some_2 hp l Hl) as [w Hw]. rewrite Hw. reflexivity.
Qed.

Lemma runs_write_last hp xs w v :
  runs (write (length hp) v) (mk (hp ++ [w]) xs) (length hp) (mk (hp ++ [v]) xs).
Proof.
  pose proof (runs_write (hp ++ [w]) xs (length hp) v) as H.
  rewrite length_app in H. simpl in H. specialize (H ltac:(lia)).
  rewrite insert_app_r_alt in H by lia.
  replace (length hp - length hp)%nat with O in H by lia. exact H.
Qed.

Lemma runs_MarshalBinary (hp : list Z) xs (l : loc) v :
  hp !! l = Some v ->
  runs (MarshalBinary l) (mk hp xs) (scalar_encode v) (mk hp xs).
Proof.
  intros Hl. unfold MarshalBinary.
  eapply runs_bind; [apply runs_load, Hl | apply runs_ret].
Qed.

Section binop.
Variable op : loc -> loc -> loc -> Prog loc.
Variable f : Z -> Z -> Z.
Hypothesis op_def : forall recv a b,
  op recv a b = (va ← load a; vb ← load b; write recv (f va vb mod order)).

Lemma runs_binop (hp : list Z) xs (recv a b : loc) va vb :
  hp !! a = Some va -> hp !! b = Some vb -> (recv < length hp)%nat ->
  runs (op recv a b) (mk hp xs) recv (mk (<[recv := f va vb mod order]> hp) xs).
Proof using op_def.
  intros Ha Hb Hr. rewrite op_def.
  eapply runs_bind; [apply runs_load, Ha|].
  eapply runs_bind; [apply runs_load, Hb|].
  apply runs_write, Hr.
Qed.

(** The receiver is the scalar allocated last and also the left operand. *)
Lemma runs_binop_last (H : list Z) xs (b : loc) va vb :
  H !! b = Some vb ->
  runs (op (length H) (length H) b) (mk (H ++ [va]) xs) (length H)
    (mk (H ++ [f va vb mod order]) xs).
Proof using op_def.
  intros Hb.
  pose proof (runs_binop (H ++ [va]) xs (length H) (length H) b va vb) as Hr.
  rewrite insert_app_r_alt in Hr by lia.
  replace (length H - length H)%nat with O in Hr by lia.
  apply Hr.
  - rewrite lookup_app_r by lia.
    replace (length H - length H)%nat with O by lia. reflexivity.
  - rewrite lookup_app_l by (eapply lookup_lt_Some; eauto). exact Hb.
  - rewrite length_app. simpl. lia.
Qed.
End binop.

Lemma runs_Add (hp : list Z) xs (recv a b : loc) va vb :
  hp !! a = Some va -> hp !! b = Some vb -> (recv < length hp)%nat ->
  runs (Add recv a b) (mk hp xs) recv (mk (<[recv := (va + vb) mod order]> hp) xs).
Proof. exact (runs_binop Add Z.add (fun _ _ _ => eq_refl) hp xs recv a b va vb). Qed.

Lemma runs_Mul (hp : list Z) xs (recv a b : loc) va vb :
  hp !! a = Some va -> hp !! b = Some vb -> (recv < length hp)%nat ->
  runs (Mul recv a b) (mk hp xs) recv (mk (<[recv := (va * vb) mod order]> hp) xs).
Proof. exact (runs_binop Mul Z.mul (fun _ _ _ => eq_refl) hp xs recv a b va vb). Qed.

Lemma runs_Add_last (H : list Z) xs (b : loc) va vb :
  H !! b = Some vb ->
  runs (Add (length H) (length H) b) (mk (H ++ [va]) xs) (length H)
    (mk (H ++ [(va + vb) mod order]) xs).
Proof. exact (runs_binop_last Add Z.add (fun _ _ _ => eq_refl) H xs b va vb). Qed.

Lemma runs_Sub_last (H : list Z) xs (b : loc) va vb :
  H !! b = Some vb ->
  runs (Sub (length H) (length H) b) (mk (H ++ [va]) xs) (length H)
    (mk (H ++ [(va - vb) mod order]) xs).
Proof. exact (runs_binop_last Sub Z.sub (fun _ _ _ => eq_refl) H xs b va vb). Qed.

Lemma runs_Mul_last (H : list Z) xs (b : loc) va vb :
  H !! b = Some vb ->
  runs (Mul (length H) (length H) b) (mk (H ++ [va]) xs) (length H)
    (mk (H ++ [(va * vb) mod order]) xs).
Proof. exact (runs_binop_last Mul Z.mul (fun _ _ _ => eq_refl) H xs b va vb). Qed.

Lemma bind_runs_eq {A B} (m : Prog A) (k : A -> Prog B) s a s1 :
  runs m s a s1 -> (m ≫= k) s = k a s1.
Proof. unfold runs, mbind, Prog_bind, pbind. intros ->. reflexivity. Qed.

(** *** The loops *)

Lemma sum_mod_range acc vs : 0 <= acc < order -> 0 <= sum_mod acc vs < order.
Proof using order_gt_1.
  revert acc. induction vs as [|v vs IH]; intros acc Hacc; simpl; [exact Hacc|].
  apply IH. apply Z.mod_pos_bound. lia.
Qed.

Lemma sum_mod_spec acc vs :
  0 <= acc < order -> sum_mod acc vs = (acc + list_sum_Z vs) mod order.
Proof using order_gt_1.
  revert acc. induction vs as [|v vs IH]; intros acc Hacc; simpl.
  - rewrite Z.add_0_r, Z.mod_small; lia.
  - rewrite IH by (apply Z.mod_pos_bound; lia).
    rewrite Zplus_mod_idemp_l. f_equal. lia.
Qed.

Lemma sigma_range pads : 0 <= sigma pads < order.
Proof using order_gt_1. apply sum_mod_range. lia. Qed.

Lemma runs_hashInGroup (hp : list Z) xs data :
  runs (hashInGroup data) (mk hp xs) (length hp)
    (mk (hp ++ [scalar_decode data]) xs).
Proof.
  unfold hashInGroup.
  eapply runs_bind; [apply runs_Scalar|]. apply runs_write_last.
Qed.

Lemma runs_for_each_hashInGroup (hp : list Z) xs pads :
  runs (for_each hashInGroup pads) (mk hp xs)
    (seq (length hp) (length pads)) (mk (hp ++ map scalar_decode pads) xs).
Proof.
  revert hp. induction pads as [|p pads IH]; intros hp.
  - simpl. rewrite app_nil_r. apply runs_ret.
  - cbn [for_each].
    eapply runs_bind; [apply runs_hashInGroup|].
    eapply runs_bind; [apply IH|].
    cbn [map length seq]. rewrite <- app_assoc, length_app. cbn [app length].
    replace (length hp + 1)%nat with (S (length hp)) by lia.
    apply runs_ret.
Qed.

Lemma runs_sum_into (hp : list Z) xs (sum : loc) (qs : list loc) a vs :
  hp !! sum = Some a ->
  Forall2 (fun (l : loc) v => hp !! l = Some v /\ l <> sum) qs vs ->
  runs (sum_into sum qs) (mk hp xs) sum (mk (<[sum := sum_mod a vs]> hp) xs).
Proof.
  revert hp a vs. induction qs as [|q qs IH]; intros hp a vs Hsum Hqs.
  - apply Forall2_nil_inv_l in Hqs as ->.
    simpl. rewrite list_insert_id by exact Hsum. apply runs_ret.
  - apply Forall2_cons_inv_l in Hqs as (v & vs' & [Hq Hne] & Hqs & ->).
    cbn [sum_into].
    assert (Hlt : (sum < length hp)%nat) by (eapply lookup_lt_Some; eauto).
    eapply runs_bind; [apply (runs_Add hp xs sum sum q a v); assumption|].
    change (sum_mod a (v :: vs')) with (sum_mod ((a + v) mod order) vs').
    rewrite <- (list_insert_insert_eq hp sum (sum_mod ((a + v) mod order) vs')
                  ((a + v) mod order)).
    apply IH.
    + apply list_lookup_insert_eq. exact Hlt.
    + eapply Forall2_impl; [exact Hqs|].
      intros l w [Hl Hlne]. split; [|exact Hlne].
      rewrite list_lookup_insert_ne by congruence. exact Hl.
Qed.

Lemma runs_sum_fresh (H pre vs post : list Z) xs a :
  H = pre ++ vs ++ post ->
  runs (sum_into (length H) (seq (length pre) (length vs)))
    (mk (H ++ [a]) xs) (length H) (mk (H ++ [sum_mod a vs]) xs).
Proof.
  intros HH.
  pose proof (runs_sum_into (H ++ [a]) xs (length H)
                (seq (length pre) (length vs)) a vs) as Hr.
  rewrite insert_app_r_alt in Hr by lia.
  replace (length H - length H)%nat with O in Hr by lia.
  apply Hr.
  - rewrite lookup_app_r by lia.
    replace (length H - length H)%nat with O by lia. reflexivity.
  - apply Forall2_same_length_lookup. split; [apply length_seq|].
    intros i l v Hl Hv. apply lookup_seq in Hl as [-> Hi].
    assert (Hlen : (length pre + i < length H)%nat).
    { subst H. rewrite !length_app. lia. }
    split; [|lia].
    rewrite lookup_app_l by exact Hlen. subst H.
    rewrite lookup_app_r by lia.
    replace (length pre + i - length pre)%nat with i by lia.
    rewrite lookup_app_l by lia. exact Hv.
Qed.

Lemma lookup_app_last {A} (H : list A) (a : A) : (H ++ [a]) !! length H = Some a.
Proof.
  rewrite lookup_app_r by lia.
  replace (length H - length H)%nat with O by lia. reflexivity.
Qed.

(** From [Scalar()] to the end of the summing loop. *)
Lemma sum_block_eq {B} (k : loc -> Prog B) (H pre vs post : list Z) xs :
  H = pre ++ vs ++ post ->
  (fresh ← Scalar; sum ← Zero fresh;
   sum ← sum_into sum (seq (length pre) (length vs)); k sum) (mk H xs)
  = k (length H) (mk (H ++ [sum_mod 0 vs]) xs).
Proof.
  intros HH.
  rewrite (bind_runs_eq _ _ _ _ _ (runs_Scalar H xs)).
  rewrite (bind_runs_eq _ _ _ _ _ (runs_write_last H xs 0 0)).
  rewrite (bind_runs_eq _ _ _ _ _ (runs_sum_fresh H pre vs post xs 0 HH)).
  reflexivity.
Qed.

(** *** What each method computes *)

Lemma TrusteeGetContribution_eq e s_i (hp : list Z) xs :
  TrusteeGetContribution e s_i (mk hp xs) =
  (Ret (scalar_encode (sigma s_i)),
   mk ((hp ++ map scalar_decode s_i) ++ [sigma s_i]) xs).
Proof.
  unfold TrusteeGetContribution.
  rewrite (bind_runs_eq _ _ _ _ _ (runs_for_each_hashInGroup hp xs s_i)).
  rewrite <- (length_map scalar_decode s_i).
  rewrite (sum_block_eq _ (hp ++ map scalar_decode s_i) hp
             (map scalar_decode s_i) [] xs) by (rewrite app_nil_r; reflexivity).
  apply runs_MarshalBinary, lookup_app_last.
Qed.

Lemma bind_panic_eq {A B} (m : Prog A) (k : A -> Prog B) s msg s1 :
  m s = (Panic msg, s1) -> (m ≫= k) s = (Panic msg, s1).
Proof. unfold mbind, Prog_bind, pbind. intros ->. reflexivity. Qed.

Lemma randomScalar_eq e (hp : list Z) xs :
  randomScalar e (mk hp xs) =
  match xs !! randomness e with
  | None => (Panic "nil pointer dereference", mk (hp ++ [0]) xs)
  | Some r =>
      let '(k_i, r') := random_Int order r in
      (Ret (length hp), mk (hp ++ [k_i]) (<[randomness e := r']> xs))
  end.
Proof.
  unfold randomScalar.
  rewrite (bind_runs_eq _ _ _ _ _ (runs_Scalar hp xs)).
  unfold Pick, mk. cbn [xofs scalars].
  destruct (xs !! randomness e) as [r|]; [|reflexivity].
  destruct (random_Int order r) as [k_i r'].
  apply (runs_write_last hp (<[randomness e := r']> xs) 0 k_i).
Qed.

Lemma ClientEncryptPayload_eq e slotOwner x p_j (hp : list Z) xs h :
  hp !! history e = Some h ->
  ClientEncryptPayload e slotOwner x p_j (mk hp xs)
  = client_result e slotOwner x p_j hp xs h.
Proof.
  intros Hh. unfold ClientEncryptPayload, client_result.
  rewrite (bind_runs_eq _ _ _ _ _ (runs_for_each_hashInGroup hp xs p_j)).
  rewrite <- (length_map scalar_decode p_j).
  set (H := hp ++ map scalar_decode p_j).
  rewrite (sum_block_eq _ H hp (map scalar_decode p_j) [] xs)
    by (rewrite app_nil_r; reflexivity).
  fold (sigma p_j).
  assert (HhH : H !! history e = Some h).
  { unfold H. rewrite lookup_app_l by (eapply lookup_lt_Some; eauto). exact Hh. }
  rewrite (bind_runs_eq _ _ _ _ _ (runs_Mul_last H xs (history e) (sigma p_j) h HhH)).
  set (product := (sigma p_j * h) mod order).
  destruct slotOwner; cbn [negb].
  - (* the slot owner *)
    pose proof (randomScalar_eq e (H ++ [product]) xs) as Hrs.
    destruct (xs !! randomness e) as [r|].
    2: { apply bind_panic_eq. exact Hrs. }
    destruct (random_Int order r) as [k_i r'].
    rewrite (bind_runs_eq _ _ _ _ _ Hrs).
    set (xs' := <[randomness e := r']> xs).
    rewrite (bind_runs_eq _ _ _ _ _
               (runs_MarshalBinary _ xs' _ _ (lookup_app_last (H ++ [product]) k_i))).
    unfold aes_NewCipher.
    destruct (aes_key_size_ok (scalar_encode k_i)); [|reflexivity].
    rewrite (bind_runs_eq _ _ _ _ _ (runs_ret _ _)).
    rewrite (bind_runs_eq _ _ _ _ _
               (runs_Add_last (H ++ [product]) xs' (length H) k_i product
                  (lookup_app_last H product))).
    rewrite (bind_runs_eq _ _ _ _ _
               (runs_MarshalBinary _ xs' _ _
                  (lookup_app_last (H ++ [product]) ((k_i + product) mod order)))).
    reflexivity.
  - rewrite (bind_runs_eq _ _ _ _ _
               (runs_MarshalBinary _ xs _ _ (lookup_app_last H product))).
    reflexivity.
Qed.

Lemma RelayDecode_eq e encryptedPayload trustees clients (hp : list Z) xs h :
  hp !! history e = Some h ->
  RelayDecode e encryptedPayload trustees clients (mk hp xs)
  = relay_result encryptedPayload trustees clients hp xs h.
Proof.
  intros Hh. unfold RelayDecode, relay_result, relay_key.
  set (ts := map scalar_decode trustees). set (cs := map scalar_decode clients).
  rewrite (bind_runs_eq _ _ _ _ _ (runs_for_each_hashInGroup hp xs trustees)).
  rewrite (bind_runs_eq _ _ _ _ _
             (runs_for_each_hashInGroup (hp ++ ts) xs clients)).
  fold ts cs.
  rewrite <- (length_map scalar_decode trustees), <- (length_map scalar_decode clients).
  fold ts cs. set (H := (hp ++ ts) ++ cs).
  rewrite (sum_block_eq _ H hp ts cs xs) by (unfold H; rewrite app_assoc; reflexivity).
  rewrite (sum_block_eq _ (H ++ [sum_mod 0 ts]) (hp ++ ts) cs [sum_mod 0 ts] xs)
    by (unfold H; rewrite <- !app_assoc; reflexivity).
  fold (sigma trustees) (sigma clients).
  set (sT := sigma trustees). set (sC := sigma clients).
  assert (HhH : ((H ++ [sT]) ++ [sC]) !! history e = Some h).
  { assert (Hlt : (history e < length hp)%nat) by (eapply lookup_lt_Some; eauto).
    unfold H. rewrite !lookup_app_l by (rewrite ?length_app; lia). exact Hh. }
  assert (HsT : ((H ++ [sT]) ++ [sC]) !! length H = Some sT).
  { rewrite lookup_app_l by (rewrite length_app; simpl; lia).
    apply lookup_app_last. }
  rewrite (bind_runs_eq _ _ _ _ _
             (runs_Mul _ xs (length H) (length H) (history e) sT h HsT HhH
                ltac:(rewrite !length_app; simpl; lia))).
  set (prod := (sT * h) mod order).
  replace (<[length H := prod]> ((H ++ [sT]) ++ [sC]))
    with ((H ++ [prod]) ++ [sC]).
  2: { rewrite insert_app_l by (rewrite length_app; simpl; lia).
       rewrite insert_app_r_alt by lia.
       replace (length H - length H)%nat with O by lia. reflexivity. }
  replace (length (H ++ [sum_mod 0 ts])) with (length (H ++ [prod]))
    by (rewrite !length_app; reflexivity).
  assert (Hprod : (H ++ [prod]) !! length H = Some prod) by apply lookup_app_last.
  rewrite (bind_runs_eq _ _ _ _ _
             (runs_Sub_last (H ++ [prod]) xs (length H) sC prod Hprod)).
  set (k_i := (sC - prod) mod order).
  rewrite (bind_runs_eq _ _ _ _ _
             (runs_MarshalBinary _ xs _ _ (lookup_app_last (H ++ [prod]) k_i))).
  destruct (length (scalar_encode k_i) =? 0)%nat; [reflexivity|].
  unfold aes_NewCipher.
  destruct (aes_key_size_ok (scalar_encode k_i)); [|reflexivity].
  rewrite (bind_runs_eq _ _ _ _ _ (runs_ret _ _)).
  destruct (gcm_Open (scalar_encode k_i) nonce12 encryptedPayload []);
    [reflexivity|].
  unfold make_bytes.
  destruct (Z.of_nat (length encryptedPayload) - 16 <? 0); reflexivity.
Qed.

Lemma UpdateHistory_eq e data (hp : list Z) xs h :
  hp !! history e = Some h ->
  UpdateHistory e data (mk hp xs) =
  (Ret tt,
   mk (<[history e :=
          scalar_decode (sha256_Sum256 (zeros (MarshalSize + length data)))]> hp)
      xs).
Proof.
  intros Hh. unfold UpdateHistory.
  rewrite (bind_runs_eq _ _ _ _ _ (runs_MarshalBinary hp xs _ _ Hh)).
  rewrite length_scalar_encode.
  unfold SetBytes.
  rewrite (bind_runs_eq _ _ _ _ _
             (runs_write hp xs (history e) _ (lookup_lt_Some _ _ _ Hh))).
  reflexivity.
Qed.

Lemma NewEquivocation_eq randomKey (hp : list Z) xs :
  NewEquivocation randomKey (mk hp xs) =
  (Ret {| history := length hp; randomness := length xs |},
   mk (hp ++ [1]) (xs ++ [suite_XOF randomKey])).
Proof.
  unfold NewEquivocation.
  rewrite (bind_runs_eq _ _ _ _ _ (runs_Scalar hp xs)).
  rewrite (bind_runs_eq _ _ _ _ _ (runs_write_last hp xs 0 1)).
  reflexivity.
Qed.

Lemma store_eta (s : store) : s = mk (scalars s) (xofs s).
Proof. destruct s. reflexivity. Qed.

Lemma sigma_spec pads :
  sigma pads = list_sum_Z (map scalar_decode pads) mod order.
Proof using order_gt_1. unfold sigma. rewrite sum_mod_spec by lia. reflexivity. Qed.

(** *** Properties of the methods *)

(** C3. A client that does not own the slot gets its payload [x] back
    unchanged, with the marshalled kappa_i = h * sigma_i, where sigma_i is
    the sum, in the scalars, of [hashInGroup] over its pads. *)
Theorem ClientEncryptPayload_not_slot_owner e x p_j (s : store) h :
  scalars s !! history e = Some h ->
  fst (ClientEncryptPayload e false x p_j s)
    = Ret (x, scalar_encode ((h * sigma p_j) mod order))
  /\ sigma p_j = list_sum_Z (map scalar_decode p_j) mod order.
Proof using order_gt_1.
  intros Hh. split; [|apply sigma_spec].
  rewrite (store_eta s), (ClientEncryptPayload_eq _ _ _ _ _ _ h Hh).
  unfold client_result. cbn [negb fst]. rewrite (Z.mul_comm h). reflexivity.
Qed.

(** C2 (what the code does). [UpdateHistory] leaves in the history the
    SHA-256 hash, set back into a scalar, of a buffer of zeros as long as the
    marshalled history and [data] together: neither the history nor [data]
    is copied into what is hashed. *)
Theorem UpdateHistory_hashes_zeros (pre post : list Z) (h : Z) xs r data :
  UpdateHistory {| history := length pre; randomness := r |} data
    (mk (pre ++ h :: post) xs)
  = (Ret tt,
     mk (pre ++ scalar_decode
                  (sha256_Sum256 (zeros (MarshalSize + length data))) :: post)
        xs).
Proof.
  rewrite (UpdateHistory_eq _ _ _ _ h).
  - cbn [history]. rewrite insert_app_r_alt by lia.
    replace (length pre - length pre)%nat with O by lia. reflexivity.
  - cbn [history]. rewrite lookup_app_r by lia.
    replace (length pre - length pre)%nat with O by lia. reflexivity.
Qed.

(** C7. A new equivocation state has the scalar one as its history, and one
    is the identity of the scalars' multiplication. *)
Theorem NewEquivocation_history_is_one randomKey (s : store) :
  exists e s',
    NewEquivocation randomKey s = (Ret e, s')
    /\ scalars s' !! history e = Some 1
    /\ forall v, 0 <= v < order ->
         (1 * v) mod order = v /\ (v * 1) mod order = v.
Proof using order_gt_1.
  rewrite (store_eta s), NewEquivocation_eq.
  eexists _, _. split; [reflexivity|]. split.
  - apply lookup_app_last.
  - intros v Hv. rewrite Z.mul_1_l, Z.mul_1_r, Z.mod_small by lia. lia.
Qed.

(** C9. [ClientEncryptPayload], [TrusteeGetContribution] and [RelayDecode]
    leave the history scalar as it was, whether they return or panic;
    [UpdateHistory] overwrites it. *)
Theorem history_only_written_by_UpdateHistory e (s : store) h :
  scalars s !! history e = Some h ->
  (forall slotOwner x p_j,
     scalars (snd (ClientEncryptPayload e slotOwner x p_j s)) !! history e
       = Some h)
  /\ (forall s_i,
       scalars (snd (TrusteeGetContribution e s_i s)) !! history e = Some h)
  /\ (forall encryptedPayload trustees clients,
       scalars (snd (RelayDecode e encryptedPayload trustees clients s))
         !! history e = Some h)
  /\ (forall data,
       scalars (snd (UpdateHistory e data s)) !! history e
         = Some (scalar_decode
                   (sha256_Sum256 (zeros (MarshalSize + length data))))).
Proof.
  intros Hh.
  assert (Hlt : (history e < length (scalars s))%nat)
    by (eapply lookup_lt_Some; eauto).
  assert (Hext : forall ext, (scalars s ++ ext) !! history e = Some h).
  { intros ext. rewrite lookup_app_l by exact Hlt. exact Hh. }
  rewrite (store_eta s). repeat split.
  - intros slotOwner x p_j.
    rewrite (ClientEncryptPayload_eq _ _ _ _ _ _ h Hh). unfold client_result.
    destruct slotOwner; cbn [negb].
    + destruct (xofs s !! randomness e) as [r|].
      * destruct (random_Int order r) as [k_i r'].
        destruct (aes_key_size_ok (scalar_encode k_i));
          cbn [snd scalars mk]; rewrite <- !app_assoc; apply Hext.
      * cbn [snd scalars mk]. rewrite <- !app_assoc. apply Hext.
    + cbn [snd scalars mk]. rewrite <- !app_assoc. apply Hext.
  - intros s_i. rewrite TrusteeGetContribution_eq.
    cbn [snd scalars mk]. rewrite <- !app_assoc. apply Hext.
  - intros encryptedPayload trustees clients.
    rewrite (RelayDecode_eq _ _ _ _ _ _ h Hh). unfold relay_result.
    repeat match goal with
           | |- context [if ?b then _ else _] => destruct b
           | |- context [match ?o with Some _ => _ | None => _ end] => destruct o
           end;
      cbn [snd scalars mk]; rewrite <- !app_assoc; apply Hext.
  - intros data. rewrite (UpdateHistory_eq _ _ _ _ h Hh).
    cbn [snd scalars mk]. apply list_lookup_insert_eq. exact Hlt.
Qed.

(** C5 (as the code has it). When the AES-GCM authentication check fails on
    a ciphertext of at least 16 bytes, [RelayDecode] drops what was decoded
    and returns a buffer of zeros, 16 bytes shorter than the ciphertext. *)
Theorem RelayDecode_authentication_failure e (s : store) h
    encryptedPayload trustees clients :
  scalars s !! history e = Some h ->
  aes_key_size_ok (scalar_encode (relay_key h trustees clients)) = true ->
  gcm_Open (scalar_encode (relay_key h trustees clients)) nonce12
    encryptedPayload [] = None ->
  (16 <= length encryptedPayload)%nat ->
  fst (RelayDecode e encryptedPayload trustees clients s)
    = Ret (zeros (length encryptedPayload - 16)).
Proof.
  intros Hh Hkey Hopen Hlen.
  rewrite (store_eta s), (RelayDecode_eq _ _ _ _ _ _ h Hh).
  unfold relay_result. rewrite Hkey, Hopen.
  destruct (length (scalar_encode (relay_key h trustees clients)) =? 0)%nat eqn:E.
  { apply Nat.eqb_eq in E. unfold aes_key_size_ok in Hkey.
    rewrite E in Hkey. discriminate. }
  destruct (Z.of_nat (length encryptedPayload) - 16 <? 0) eqn:E2.
  { apply Z.ltb_lt in E2. lia. }
  cbn [fst]. repeat f_equal. lia.
Qed.

(** *** Sums of scalars *)

Lemma list_sum_Z_cons v vs : list_sum_Z (v :: vs) = v + list_sum_Z vs.
Proof. reflexivity. Qed.

Lemma list_sum_Z_map_mod {A} (f : A -> Z) (l : list A) :
  list_sum_Z (map (fun a => f a mod order) l) mod order
  = list_sum_Z (map f l) mod order.
Proof.
  induction l as [|a l IH]; [reflexivity|]. cbn [map].
  rewrite !list_sum_Z_cons, Zplus_mod_idemp_l.
  rewrite <- Zplus_mod_idemp_r, IH, Zplus_mod_idemp_r. reflexivity.
Qed.

Lemma list_sum_Z_map_add {A} (f g : A -> Z) (l : list A) :
  list_sum_Z (map (fun a => f a + g a) l)
  = list_sum_Z (map f l) + list_sum_Z (map g l).
Proof.
  induction l as [|a l IH]; [reflexivity|]. cbn [map].
  rewrite !list_sum_Z_cons, IH. lia.
Qed.

Lemma list_sum_Z_map_mul {A} (f : A -> Z) (c : Z) (l : list A) :
  list_sum_Z (map (fun a => f a * c) l) = list_sum_Z (map f l) * c.
Proof.
  induction l as [|a l IH]; [reflexivity|]. cbn [map].
  rewrite !list_sum_Z_cons, IH. lia.
Qed.

Lemma list_sum_Z_map_zero {A} (l : list A) :
  list_sum_Z (map (fun _ => 0) l) = 0.
Proof. induction l as [|a l IH]; [reflexivity|]. cbn [map]. rewrite list_sum_Z_cons, IH. lia. Qed.

(** Summing a table by rows or by columns. *)
Lemma list_sum_Z_swap {A B} (f : A -> B -> Z) (la : list A) (lb : list B) :
  list_sum_Z (map (fun a => list_sum_Z (map (fun b => f a b) lb)) la)
  = list_sum_Z (map (fun b => list_sum_Z (map (fun a => f a b) la)) lb).
Proof.
  induction la as [|a la IH]; cbn [map].
  - rewrite list_sum_Z_map_zero. reflexivity.
  - rewrite list_sum_Z_cons, IH, <- list_sum_Z_map_add. reflexivity.
Qed.

(** Only the slot owner adds a key. *)
Lemma list_sum_Z_owner (k : Z) (owner start n : nat) :
  list_sum_Z (map (fun i => if (i =? owner)%nat then k else 0) (seq start n))
  = if ((start <=? owner) && (owner <? start + n))%nat then k else 0.
Proof.
  revert start. induction n as [|n IH]; intros start.
  - cbn [seq map]. destruct (start <=? owner)%nat eqn:E1; cbn [andb]; [|reflexivity].
    destruct (owner <? start + 0)%nat eqn:E2; [|reflexivity].
    apply Nat.leb_le in E1. apply Nat.ltb_lt in E2. lia.
  - cbn [seq map]. rewrite list_sum_Z_cons, IH.
    destruct (Nat.eqb_spec start owner) as [->|Hne].
    + replace (S owner <=? owner)%nat with false by (symmetry; apply Nat.leb_gt; lia).
      rewrite Nat.leb_refl.
      replace (owner <? owner + S n)%nat with true by (symmetry; apply Nat.ltb_lt; lia).
      cbn [andb]. lia.
    + replace (start + S n)%nat with (S start + n)%nat by lia.
      destruct (Nat.leb_spec (S start) owner), (Nat.leb_spec start owner);
        cbn [andb]; try lia.
Qed.

Lemma map_ext_seq {A} (f g : nat -> A) start n :
  (forall i, (start <= i < start + n)%nat -> f i = g i) ->
  map f (seq start n) = map g (seq start n).
Proof.
  intros Hfg. apply map_ext_in. intros i Hi. apply in_seq in Hi. apply Hfg, Hi.
Qed.

Lemma lookup_map_seq {A} (f : nat -> A) (start n i : nat) :
  (i < n)%nat -> map f (seq start n) !! i = Some (f (start + i)%nat).
Proof.
  revert start i. induction n as [|n IH]; intros start i Hi; [lia|].
  destruct i as [|i]; cbn [seq map].
  - rewrite Nat.add_0_r. reflexivity.
  - change ((f start :: map f (seq (S start) n)) !! S i)
      with (map f (seq (S start) n) !! i).
    rewrite IH by lia. f_equal. f_equal. lia.
Qed.

Lemma Forall2_map_seq {A} (P : nat -> A -> Prop) (f : nat -> A) start n :
  (forall i, (start <= i < start + n)%nat -> P i (f i)) ->
  Forall2 P (seq start n) (map f (seq start n)).
Proof.
  revert start. induction n as [|n IH]; intros start HP; cbn [seq map].
  - constructor.
  - constructor; [apply HP; lia|]. apply IH. intros i Hi. apply HP. lia.
Qed.

Lemma key_recovered k A T h :
  0 <= k < order -> A mod order = T mod order ->
  ((k + A * h) mod order - ((T mod order) * h) mod order) mod order = k.
Proof using order_gt_1.
  intros Hk HAT.
  rewrite Zminus_mod_idemp_l, Zminus_mod_idemp_r, <- HAT.
  assert (Hq : order <> 0) by lia.
  pose proof (Z.div_mod A order Hq) as HA.
  replace (k + A * h - A mod order * h) with (k + (A / order * h) * order) by nia.
  rewrite Z_mod_plus_full. apply Z.mod_small. exact Hk.
Qed.

(** *** An honest round *)

Section HonestRound.

Variables nClients nTrustees : nat.
Variable pad : nat -> nat -> bytes.
Variable owner : nat.
Variable x : bytes.
Variable payload : nat -> bytes.

(** [random.Int] draws below the modulus; [Open] undoes [Seal]; the
    marshalled scalars are usable as AES keys. *)
Hypothesis random_Int_range : forall r, 0 <= fst (random_Int order r) < order.
Hypothesis gcm_Open_Seal : forall key plaintext,
  gcm_Open key nonce12 (gcm_Seal key nonce12 plaintext []) [] = Some plaintext.
Hypothesis key_size : In MarshalSize [16; 24; 32]%nat.

Lemma key_size_ok v : aes_key_size_ok (scalar_encode v) = true.
Proof using key_size.
  unfold aes_key_size_ok. rewrite length_scalar_encode.
  destruct key_size as [<-|[<-|[<-|[]]]]; reflexivity.
Qed.

Lemma sigma_clients_total :
  list_sum_Z (map (fun i => sigma (client_pads nTrustees pad i)) (seq 0 nClients)) mod order
  = list_sum_Z
      (map (fun i => list_sum_Z
                       (map (fun j => scalar_decode (pad i j)) (seq 0 nTrustees)))
         (seq 0 nClients)) mod order.
Proof using order_gt_1.
  rewrite <- (list_sum_Z_map_mod
                (fun i => list_sum_Z
                   (map (fun j => scalar_decode (pad i j)) (seq 0 nTrustees)))).
  f_equal. f_equal. apply map_ext. intros i.
  rewrite sigma_spec. unfold client_pads. rewrite map_map. reflexivity.
Qed.

Lemma sigma_trustees_total :
  list_sum_Z (map (fun j => sigma (trustee_pads nClients pad j)) (seq 0 nTrustees)) mod order
  = list_sum_Z
      (map (fun i => list_sum_Z
                       (map (fun j => scalar_decode (pad i j)) (seq 0 nTrustees)))
         (seq 0 nClients)) mod order.
Proof using order_gt_1.
  rewrite list_sum_Z_swap.
  rewrite <- (list_sum_Z_map_mod
                (fun j => list_sum_Z
                   (map (fun i => scalar_decode (pad i j)) (seq 0 nClients)))).
  f_equal. f_equal. apply map_ext. intros j.
  rewrite sigma_spec. unfold trustee_pads. rewrite map_map. reflexivity.
Qed.

(** C1. In an honest round every client and trustee call returns, and the
    relay, given the owner's ciphertext, the trustees' contributions and the
    clients' kappas, returns the owner's payload [x].  Every participant holds
    an equivocation state of its own whose history is [h]. *)
Theorem RelayDecode_honest_round
    (client_e trustee_e : nat -> EquivocationProtection)
    (client_s trustee_s : nat -> store)
    (relay_e : EquivocationProtection) (relay_s : store) (h : Z) :
  (owner < nClients)%nat ->
  (forall i, (i < nClients)%nat ->
     scalars (client_s i) !! history (client_e i) = Some h) ->
  is_Some (xofs (client_s owner) !! randomness (client_e owner)) ->
  scalars relay_s !! history relay_e = Some h ->
  exists (cells : list (bytes * bytes)) (sigmas : list bytes) x' kappa,
    Forall2 (fun i c => fst (client_call nTrustees pad owner x payload (client_e i) i (client_s i)) = Ret c)
      (seq 0 nClients) cells
    /\ Forall2 (fun j sg =>
                  fst (TrusteeGetContribution (trustee_e j) (trustee_pads nClients pad j)
                         (trustee_s j)) = Ret sg)
         (seq 0 nTrustees) sigmas
    /\ cells !! owner = Some (x', kappa)
    /\ fst (RelayDecode relay_e x' sigmas (map snd cells) relay_s) = Ret x.
Proof using order_gt_1 random_Int_range gcm_Open_Seal key_size.
  intros Howner Hclients [r Hr] Hrelay.
  set (k := fst (random_Int order r)).
  assert (Hk : 0 <= k < order) by apply random_Int_range.
  set (prod := fun i => (sigma (client_pads nTrustees pad i) * h) mod order).
  set (cell := fun i =>
    if (i =? owner)%nat
    then (gcm_Seal (scalar_encode k) nonce12 x [],
          scalar_encode ((k + prod i) mod order))
    else (payload i, scalar_encode (prod i))).
  exists (map cell (seq 0 nClients)).
  exists (map (fun j => scalar_encode (sigma (trustee_pads nClients pad j))) (seq 0 nTrustees)).
  exists (gcm_Seal (scalar_encode k) nonce12 x []).
  exists (scalar_encode ((k + prod owner) mod order)).
  split; [|split; [|split]].
  - apply Forall2_map_seq. intros i Hi. unfold client_call.
    rewrite (store_eta (client_s i)).
    rewrite (ClientEncryptPayload_eq _ _ _ _ _ _ h (Hclients i ltac:(lia))).
    unfold client_result, cell. fold (prod i).
    destruct (Nat.eqb_spec i owner) as [->|Hne]; cbn [negb]; [|reflexivity].
    rewrite Hr. unfold k. destruct (random_Int order r) as [k_i r'].
    rewrite key_size_ok. reflexivity.
  - apply Forall2_map_seq. intros j Hj.
    rewrite (store_eta (trustee_s j)), TrusteeGetContribution_eq. reflexivity.
  - rewrite lookup_map_seq by exact Howner. unfold cell. cbn [Nat.add].
    rewrite Nat.eqb_refl. reflexivity.
  - rewrite (store_eta relay_s), (RelayDecode_eq _ _ _ _ _ _ h Hrelay).
    unfold relay_result.
    assert (Hkey : relay_key h
              (map (fun j => scalar_encode (sigma (trustee_pads nClients pad j)))
                 (seq 0 nTrustees))
              (map snd (map cell (seq 0 nClients))) = k).
    { unfold relay_key. rewrite !sigma_spec, !map_map.
      rewrite (map_ext_seq
                 (fun j => scalar_decode (scalar_encode (sigma (trustee_pads nClients pad j))))
                 (fun j => sigma (trustee_pads nClients pad j)))
        by (intros; apply scalar_decode_encode, sigma_range).
      rewrite (map_ext_seq
                 (fun i => scalar_decode (snd (cell i)))
                 (fun i => ((if (i =? owner)%nat then k else 0)
                            + sigma (client_pads nTrustees pad i) * h) mod order)).
      2: { intros i _. unfold cell, prod.
           destruct (i =? owner)%nat; cbn [snd];
             rewrite scalar_decode_encode by (apply Z.mod_pos_bound; lia).
           - apply Zplus_mod_idemp_r.
           - reflexivity. }
      rewrite list_sum_Z_map_mod, list_sum_Z_map_add, list_sum_Z_map_mul.
      rewrite list_sum_Z_owner.
      replace ((0 <=? owner) && (owner <? 0 + nClients))%nat with true.
      2: { symmetry. apply andb_true_intro. split;
             [apply Nat.leb_le | apply Nat.ltb_lt]; lia. }
      rewrite sigma_trustees_total.
      apply key_recovered; [exact Hk | apply sigma_clients_total]. }
    rewrite Hkey, key_size_ok, gcm_Open_Seal.
    rewrite length_scalar_encode.
    destruct (Nat.eqb_spec MarshalSize 0) as [E|_]; [|reflexivity].
    pose proof MarshalSize_pos. lia.
Qed.

End HonestRound.

(** *** Further properties of the methods *)

Lemma key_size_usable v :
  In MarshalSize [16; 24; 32]%nat -> aes_key_size_ok (scalar_encode v) = true.
Proof.
  intros Hk. unfold aes_key_size_ok. rewrite length_scalar_encode.
  destruct Hk as [<-|[<-|[<-|[]]]]; reflexivity.
Qed.

Lemma key_size_unusable v :
  ~ In MarshalSize [16; 24; 32]%nat -> aes_key_size_ok (scalar_encode v) = false.
Proof.
  intros Hk. unfold aes_key_size_ok. rewrite length_scalar_encode.
  destruct (Nat.eqb_spec MarshalSize 16) as [E|_]; [exfalso; apply Hk; rewrite E; cbn; tauto|].
  destruct (Nat.eqb_spec MarshalSize 24) as [E|_]; [exfalso; apply Hk; rewrite E; cbn; tauto|].
  destruct (Nat.eqb_spec MarshalSize 32) as [E|_]; [exfalso; apply Hk; rewrite E; cbn; tauto|].
  reflexivity.
Qed.

Lemma length_scalar_encode_nonzero v : (length (scalar_encode v) =? 0)%nat = false.
Proof using order_gt_1.
  rewrite length_scalar_encode. pose proof MarshalSize_pos.
  apply Nat.eqb_neq. lia.
Qed.

(** X1. The slot owner draws a key k_i from its random stream, returns its
    payload sealed under the marshalled k_i with the all-zero nonce, and
    kappa_i = k_i + h * sigma_i; the stream it drew from has advanced. *)
Theorem ClientEncryptPayload_slot_owner e x p_j (s : store) h r k_i r' :
  scalars s !! history e = Some h ->
  xofs s !! randomness e = Some r ->
  random_Int order r = (k_i, r') ->
  In MarshalSize [16; 24; 32]%nat ->
  fst (ClientEncryptPayload e true x p_j s)
    = Ret (gcm_Seal (scalar_encode k_i) (zeros 12) x [],
           scalar_encode ((k_i + h * sigma p_j) mod order))
  /\ xofs (snd (ClientEncryptPayload e true x p_j s))
     = <[randomness e := r']> (xofs s).
Proof.
  intros Hh Hr Hk Hsize.
  rewrite (store_eta s), (ClientEncryptPayload_eq _ _ _ _ _ _ h Hh).
  unfold client_result. cbn [negb]. rewrite Hr, Hk, key_size_usable by exact Hsize.
  cbn [fst snd xofs mk]. split; [|reflexivity].
  rewrite Zplus_mod_idemp_r, (Z.mul_comm h). reflexivity.
Qed.

(** X2. Only the slot owner's call draws from the random stream: a call of a
    client that does not own the slot, of a trustee or of the relay, and an
    update of the history, leave every stream as it was. *)
Theorem streams_only_drawn_by_slot_owner e (s : store) h :
  scalars s !! history e = Some h ->
  (forall x p_j, xofs (snd (ClientEncryptPayload e false x p_j s)) = xofs s)
  /\ (forall s_i, xofs (snd (TrusteeGetContribution e s_i s)) = xofs s)
  /\ (forall encryptedPayload trustees clients,
        xofs (snd (RelayDecode e encryptedPayload trustees clients s)) = xofs s)
  /\ (forall data, xofs (snd (UpdateHistory e data s)) = xofs s).
Proof.
  intros Hh. rewrite (store_eta s). repeat split.
  - intros x p_j. rewrite (ClientEncryptPayload_eq _ _ _ _ _ _ h Hh). reflexivity.
  - intros s_i. rewrite TrusteeGetContribution_eq. reflexivity.
  - intros encryptedPayload trustees clients.
    rewrite (RelayDecode_eq _ _ _ _ _ _ h Hh). unfold relay_result.
    repeat match goal with
           | |- context [if ?b then _ else _] => destruct b
           | |- context [match ?o with Some _ => _ | None => _ end] => destruct o
           end; reflexivity.
  - intros data. rewrite (UpdateHistory_eq _ _ _ _ h Hh). reflexivity.
Qed.

(** X3. Over a suite whose marshalled scalars are not 16, 24 or 32 bytes
    long, the guard cannot be used: every call of [RelayDecode] and every
    call of the slot owner panics in [aes.NewCipher]. *)
Theorem unusable_key_size_panics e (s : store) h r :
  scalars s !! history e = Some h ->
  xofs s !! randomness e = Some r ->
  ~ In MarshalSize [16; 24; 32]%nat ->
  (forall encryptedPayload trustees clients,
     fst (RelayDecode e encryptedPayload trustees clients s)
       = Panic "crypto/aes: invalid key size")
  /\ (forall x p_j,
        fst (ClientEncryptPayload e true x p_j s)
          = Panic "crypto/aes: invalid key size").
Proof using order_gt_1.
  intros Hh Hr Hsize. rewrite (store_eta s). split.
  - intros encryptedPayload trustees clients.
    rewrite (RelayDecode_eq _ _ _ _ _ _ h Hh). unfold relay_result.
    rewrite length_scalar_encode_nonzero, key_size_unusable by exact Hsize.
    reflexivity.
  - intros x p_j. rewrite (ClientEncryptPayload_eq _ _ _ _ _ _ h Hh).
    unfold client_result. cbn [negb]. rewrite Hr.
    destruct (random_Int order r) as [k_i r'].
    rewrite key_size_unusable by exact Hsize. reflexivity.
Qed.

(** X4. When the authentication check fails on a ciphertext of fewer than 16
    bytes, [RelayDecode] panics: the buffer it would return has a negative
    length. *)
Theorem RelayDecode_short_ciphertext_panics e (s : store) h
    encryptedPayload trustees clients :
  scalars s !! history e = Some h ->
  In MarshalSize [16; 24; 32]%nat ->
  gcm_Open (scalar_encode (relay_key h trustees clients)) (zeros 12)
    encryptedPayload [] = None ->
  (length encryptedPayload < 16)%nat ->
  fst (RelayDecode e encryptedPayload trustees clients s)
    = Panic "makeslice: len out of range".
Proof using order_gt_1.
  intros Hh Hsize Hopen Hlen.
  rewrite (store_eta s), (RelayDecode_eq _ _ _ _ _ _ h Hh).
  unfold relay_result.
  rewrite length_scalar_encode_nonzero, key_size_usable by exact Hsize.
  change nonce12 with (zeros 12). rewrite Hopen.
  destruct (Z.of_nat (length encryptedPayload) - 16 <? 0) eqn:E; [reflexivity|].
  apply Z.ltb_ge in E. lia.
Qed.

Lemma list_sum_Z_Permutation (l l' : list Z) :
  l ≡ₚ l' -> list_sum_Z l = list_sum_Z l'.
Proof.
  induction 1 as [|v l l' _ IH|v w l|l l' l'' _ IH1 _ IH2];
    rewrite ?list_sum_Z_cons; lia.
Qed.

Lemma sigma_Permutation (pads pads' : list bytes) :
  pads ≡ₚ pads' -> sigma pads = sigma pads'.
Proof using order_gt_1.
  intros Hp. rewrite !sigma_spec. f_equal.
  apply list_sum_Z_Permutation, Permutation_map, Hp.
Qed.

(** X5. What [RelayDecode] returns does not depend on the order in which
    the trustees' contributions, or the clients', are handed to it. *)
Theorem RelayDecode_order_of_contributions e (s : store) h encryptedPayload
    (trustees trustees' clients clients' : list bytes) :
  scalars s !! history e = Some h ->
  trustees ≡ₚ trustees' -> clients ≡ₚ clients' ->
  fst (RelayDecode e encryptedPayload trustees clients s)
  = fst (RelayDecode e encryptedPayload trustees' clients' s).
Proof using order_gt_1.
  intros Hh Ht Hc.
  rewrite (store_eta s), !(RelayDecode_eq _ _ _ _ _ _ h Hh).
  unfold relay_result, relay_key.
  rewrite (sigma_Permutation _ _ Ht), (sigma_Permutation _ _ Hc).
  repeat match goal with
         | |- context [if ?b then _ else _] => destruct b
         | |- context [match ?o with Some _ => _ | None => _ end] => destruct o
         end; reflexivity.
Qed.

(** X6. What a client and a trustee return does not depend on the order of
    the pads they are handed. *)
Theorem contribution_order_of_pads e (s : store) h (pads pads' : list bytes) :
  scalars s !! history e = Some h ->
  pads ≡ₚ pads' ->
  (forall slotOwner x,
     fst (ClientEncryptPayload e slotOwner x pads s)
     = fst (ClientEncryptPayload e slotOwner x pads' s))
  /\ fst (TrusteeGetContribution e pads s)
     = fst (TrusteeGetContribution e pads' s).
Proof using order_gt_1.
  intros Hh Hp. rewrite (store_eta s). split.
  - intros slotOwner x.
    rewrite !(ClientEncryptPayload_eq _ _ _ _ _ _ h Hh). unfold client_result.
    rewrite (sigma_Permutation _ _ Hp).
    destruct slotOwner; cbn [negb]; [|reflexivity].
    destruct (xofs s !! randomness e) as [r|]; [|reflexivity].
    destruct (random_Int order r) as [k_i r'].
    destruct (aes_key_size_ok (scalar_encode k_i)); reflexivity.
  - rewrite !TrusteeGetContribution_eq. cbn [fst].
    rewrite (sigma_Permutation _ _ Hp). reflexivity.
Qed.

(** X7. Before the first update of the history, a client that does not own
    the slot and a trustee holding the same pads return the same
    contribution: the history of a new state does not enter kappa. *)
Theorem new_state_kappa_is_sigma randomKey (s : store) x pads :
  exists e s' kappa,
    NewEquivocation randomKey s = (Ret e, s')
    /\ fst (ClientEncryptPayload e false x pads s') = Ret (x, kappa)
    /\ fst (TrusteeGetContribution e pads s') = Ret kappa.
Proof using order_gt_1.
  rewrite (store_eta s), NewEquivocation_eq.
  eexists _, _, _. split; [reflexivity|].
  rewrite (ClientEncryptPayload_eq
             {| history := length (scalars s); randomness := length (xofs s) |}
             _ _ _ (scalars s ++ [1]) _ 1 (lookup_app_last (scalars s) 1)).
  rewrite TrusteeGetContribution_eq. unfold client_result. cbn [negb fst].
  rewrite Z.mul_1_r, (Z.mod_small (sigma pads)) by apply sigma_range.
  split; reflexivity.
Qed.

(** X8. After [UpdateHistory] the history depends on nothing but the length
    of the data: two participants whose histories differ, updating with
    different data of the same length, end with the same history. *)
Theorem UpdateHistory_depends_on_length_only
    e1 (s1 : store) h1 data1 e2 (s2 : store) h2 data2 :
  scalars s1 !! history e1 = Some h1 ->
  scalars s2 !! history e2 = Some h2 ->
  length data1 = length data2 ->
  scalars (snd (UpdateHistory e1 data1 s1)) !! history e1
  = scalars (snd (UpdateHistory e2 data2 s2)) !! history e2.
Proof.
  intros H1 H2 Hlen.
  rewrite (store_eta s1), (store_eta s2).
  rewrite (UpdateHistory_eq _ _ _ _ h1 H1), (UpdateHistory_eq _ _ _ _ h2 H2).
  cbn [snd scalars mk].
  rewrite !list_lookup_insert_eq by (eapply lookup_lt_Some; eauto).
  rewrite Hlen. reflexivity.
Qed.

Lemma reduced_app hp ext xs :
  Forall (fun v => 0 <= v < order) hp ->
  Forall (fun v => 0 <= v < order) ext ->
  reduced (mk (hp ++ ext) xs).
Proof. intros H1 H2. apply Forall_app. split; assumption. Qed.

Lemma Forall_one (P : Z -> Prop) v : P v -> Forall P [v].
Proof. intros Hv. constructor; [exact Hv | constructor]. Qed.

Lemma Forall_scalar_decode pads :
  Forall (fun v => 0 <= v < order) (map scalar_decode pads).
Proof using order_gt_1.
  induction pads as [|p pads IH]; cbn [map]; constructor;
    [apply scalar_decode_range | exact IH].
Qed.

(** X9. The methods keep the memory reduced: if every scalar is at least
    zero and below the group order before a call, and the random stream
    draws below the modulus, the same holds after the call, whether it
    returns or panics. *)
Theorem scalars_stay_reduced e (s : store) h :
  (forall r, 0 <= fst (random_Int order r) < order) ->
  scalars s !! history e = Some h ->
  reduced s ->
  (forall slotOwner x p_j, reduced (snd (ClientEncryptPayload e slotOwner x p_j s)))
  /\ (forall s_i, reduced (snd (TrusteeGetContribution e s_i s)))
  /\ (forall encryptedPayload trustees clients,
        reduced (snd (RelayDecode e encryptedPayload trustees clients s)))
  /\ (forall data, reduced (snd (UpdateHistory e data s)))
  /\ (forall randomKey, reduced (snd (NewEquivocation randomKey s))).
Proof using order_gt_1.
  intros Hrand Hh Hs. unfold reduced in Hs.
  assert (Hm : forall v, 0 <= v mod order < order)
    by (intros v; apply Z.mod_pos_bound; lia).
  assert (Hsig : forall pads, 0 <= sigma pads < order) by apply sigma_range.
  rewrite (store_eta s).
  repeat split.
  - intros slotOwner x p_j.
    rewrite (ClientEncryptPayload_eq _ _ _ _ _ _ h Hh). unfold client_result.
    assert (H1 : Forall (fun v => 0 <= v < order)
                   ((scalars s ++ map scalar_decode p_j)
                      ++ [(sigma p_j * h) mod order])).
    { repeat apply Forall_app_2; try assumption;
        [apply Forall_scalar_decode | apply Forall_one, Hm]. }
    destruct slotOwner; cbn [negb]; [|exact H1].
    destruct (xofs s !! randomness e) as [r|].
    + pose proof (Hrand r) as Hk.
      destruct (random_Int order r) as [k_i r']. cbn [fst] in Hk.
      destruct (aes_key_size_ok (scalar_encode k_i)); cbn [snd];
        apply reduced_app; try exact H1; apply Forall_one; first [apply Hm | exact Hk].
    + cbn [snd]. apply reduced_app; [exact H1|]. apply Forall_one. lia.
  - intros s_i. rewrite TrusteeGetContribution_eq. cbn [snd].
    apply reduced_app; [|apply Forall_one, Hsig].
    apply Forall_app_2; [assumption | apply Forall_scalar_decode].
  - intros encryptedPayload trustees clients.
    rewrite (RelayDecode_eq _ _ _ _ _ _ h Hh). unfold relay_result, relay_key.
    assert (H1 : reduced (mk
               ((((scalars s ++ map scalar_decode trustees)
                    ++ map scalar_decode clients)
                   ++ [(sigma trustees * h) mod order])
                  ++ [(sigma clients - (sigma trustees * h) mod order) mod order])
               (xofs s))).
    { apply reduced_app; [|apply Forall_one, Hm].
      repeat apply Forall_app_2; try assumption;
        try apply Forall_scalar_decode.
      apply Forall_one, Hm. }
    repeat match goal with
           | |- context [if ?b then _ else _] => destruct b
           | |- context [match ?o with Some _ => _ | None => _ end] => destruct o
           end; exact H1.
  - intros data. rewrite (UpdateHistory_eq _ _ _ _ h Hh). cbn [snd].
    unfold reduced. cbn [scalars mk].
    apply Forall_insert; [assumption | apply scalar_decode_range].
  - intros randomKey. rewrite NewEquivocation_eq. cbn [snd].
    apply reduced_app; [assumption|]. apply Forall_one. lia.
Qed.

(** X19. The calls only allocate: [ClientEncryptPayload],
    [TrusteeGetContribution], [RelayDecode] and [NewEquivocation] leave every
    scalar that existed before the call as it was, whether they return or
    panic, and [UpdateHistory] changes no scalar but the history and
    allocates none. *)
Theorem calls_only_allocate e (s : store) h :
  scalars s !! history e = Some h ->
  (forall slotOwner x p_j,
     scalars s `prefix_of` scalars (snd (ClientEncryptPayload e slotOwner x p_j s)))
  /\ (forall s_i,
        scalars s `prefix_of` scalars (snd (TrusteeGetContribution e s_i s)))
  /\ (forall encryptedPayload trustees clients,
        scalars s `prefix_of`
          scalars (snd (RelayDecode e encryptedPayload trustees clients s)))
  /\ (forall randomKey,
        scalars s `prefix_of` scalars (snd (NewEquivocation randomKey s)))
  /\ (forall data,
        length (scalars (snd (UpdateHistory e data s))) = length (scalars s)
        /\ forall l : loc, l <> history e ->
             scalars (snd (UpdateHistory e data s)) !! l = scalars s !! l).
Proof.
  intros Hh. rewrite (store_eta s). cbn [scalars mk]. repeat split.
  - intros slotOwner x p_j.
    rewrite (ClientEncryptPayload_eq _ _ _ _ _ _ h Hh). unfold client_result.
    destruct slotOwner; cbn [negb].
    + destruct (xofs s !! randomness e) as [r|].
      * destruct (random_Int order r) as [k_i r'].
        destruct (aes_key_size_ok (scalar_encode k_i));
          cbn [snd scalars mk]; rewrite <- !app_assoc; apply prefix_app_r;
          reflexivity.
      * cbn [snd scalars mk]. rewrite <- !app_assoc. apply prefix_app_r.
        reflexivity.
    + cbn [snd scalars mk]. rewrite <- !app_assoc. apply prefix_app_r.
      reflexivity.
  - intros s_i. rewrite TrusteeGetContribution_eq.
    cbn [snd scalars mk]. rewrite <- !app_assoc. apply prefix_app_r. reflexivity.
  - intros encryptedPayload trustees clients.
    rewrite (RelayDecode_eq _ _ _ _ _ _ h Hh). unfold relay_result.
    repeat match goal with
           | |- context [if ?b then _ else _] => destruct b
           | |- context [match ?o with Some _ => _ | None => _ end] => destruct o
           end;
      cbn [snd scalars mk]; rewrite <- !app_assoc; apply prefix_app_r;
      reflexivity.
  - intros randomKey. rewrite NewEquivocation_eq.
    cbn [snd scalars mk]. apply prefix_app_r. reflexivity.
  - rewrite (UpdateHistory_eq _ _ _ _ h Hh). cbn [snd scalars mk].
    apply length_insert.
  - intros l Hl. rewrite (UpdateHistory_eq _ _ _ _ h Hh). cbn [snd scalars mk].
    apply list_lookup_insert_ne. congruence.
Qed.

(** *** A round in which the histories differ *)

Lemma list_sum_Z_map_congr {A} (f g : A -> Z) (l : list A) :
  (forall a, f a mod order = g a mod order) ->
  list_sum_Z (map f l) mod order = list_sum_Z (map g l) mod order.
Proof.
  intros Hfg. induction l as [|a l IH]; [reflexivity|]. cbn [map].
  rewrite !list_sum_Z_cons.
  rewrite <- Zplus_mod_idemp_l, <- Zplus_mod_idemp_r, Hfg, IH.
  rewrite Zplus_mod_idemp_l, Zplus_mod_idemp_r. reflexivity.
Qed.

Lemma list_sum_Z_map_sub {A} (f g : A -> Z) (l : list A) :
  list_sum_Z (map (fun a => f a - g a) l)
  = list_sum_Z (map f l) - list_sum_Z (map g l).
Proof.
  induction l as [|a l IH]; [reflexivity|]. cbn [map].
  rewrite !list_sum_Z_cons, IH. lia.
Qed.

Lemma key_shifted k X X' Y Y' hr :
  X mod order = X' mod order -> Y mod order = Y' mod order ->
  ((k + X) mod order - ((Y mod order) * hr) mod order) mod order
  = (k + (X' - Y' * hr)) mod order.
Proof using order_gt_1.
  intros HX HY.
  rewrite Zminus_mod_idemp_l, Zminus_mod_idemp_r, HY.
  assert (Hq : order <> 0) by lia.
  pose proof (Z.div_mod X order Hq) as H1.
  pose proof (Z.div_mod X' order Hq) as H2.
  pose proof (Z.div_mod Y' order Hq) as H3.
  rewrite HX in H1.
  replace (k + X - Y' mod order * hr)
    with (k + (X' - Y' * hr) + (X / order - X' / order + Y' / order * hr) * order)
    by nia.
  apply Z_mod_plus_full.
Qed.

Section DivergedRound.

Variables nClients nTrustees : nat.
Variable pad : nat -> nat -> bytes.
Variable owner : nat.
Variable x : bytes.
Variable payload : nat -> bytes.

(** X10. When client [i] holds the history [hist i] and the relay the
    history [hr], every call of a round still returns, and the relay opens
    the owner's cell under the key k + sum_i (hist i - hr) * S_i, where k is
    the key the owner drew and S_i the sum of client [i]'s hashed pads: the
    clients whose history is not the relay's shift the key. *)
Theorem RelayDecode_key_when_histories_differ
    (client_e trustee_e : nat -> EquivocationProtection)
    (client_s trustee_s : nat -> store)
    (relay_e : EquivocationProtection) (relay_s : store)
    (hist : nat -> Z) (hr : Z) r :
  (forall r, 0 <= fst (random_Int order r) < order) ->
  In MarshalSize [16; 24; 32]%nat ->
  (owner < nClients)%nat ->
  (forall i, (i < nClients)%nat ->
     scalars (client_s i) !! history (client_e i) = Some (hist i)) ->
  xofs (client_s owner) !! randomness (client_e owner) = Some r ->
  scalars relay_s !! history relay_e = Some hr ->
  exists (cells : list (bytes * bytes)) (sigmas : list bytes) x' kappa,
    Forall2 (fun i c => fst (client_call nTrustees pad owner x payload (client_e i) i (client_s i)) = Ret c)
      (seq 0 nClients) cells
    /\ Forall2 (fun j sg =>
                  fst (TrusteeGetContribution (trustee_e j) (trustee_pads nClients pad j)
                         (trustee_s j)) = Ret sg)
         (seq 0 nTrustees) sigmas
    /\ cells !! owner = Some (x', kappa)
    /\ fst (RelayDecode relay_e x' sigmas (map snd cells) relay_s)
       = match gcm_Open
                 (scalar_encode
                    ((fst (random_Int order r)
                      + list_sum_Z (map (fun i => (hist i - hr) * pad_sum nTrustees pad i)
                                      (seq 0 nClients))) mod order))
                 (zeros 12) x' [] with
         | Some message => Ret message
         | None =>
             if (length x' <? 16)%nat then Panic "makeslice: len out of range"
             else Ret (zeros (length x' - 16))
         end.
Proof using order_gt_1.
  intros Hrand Hsize Howner Hclients Hr Hrelay.
  set (k := fst (random_Int order r)).
  assert (Hk : 0 <= k < order) by apply Hrand.
  set (prod := fun i => (sigma (client_pads nTrustees pad i) * hist i) mod order).
  set (cell := fun i =>
    if (i =? owner)%nat
    then (gcm_Seal (scalar_encode k) nonce12 x [],
          scalar_encode ((k + prod i) mod order))
    else (payload i, scalar_encode (prod i))).
  exists (map cell (seq 0 nClients)).
  exists (map (fun j => scalar_encode (sigma (trustee_pads nClients pad j))) (seq 0 nTrustees)).
  exists (gcm_Seal (scalar_encode k) nonce12 x []).
  exists (scalar_encode ((k + prod owner) mod order)).
  split; [|split; [|split]].
  - apply Forall2_map_seq. intros i Hi. unfold client_call.
    rewrite (store_eta (client_s i)).
    rewrite (ClientEncryptPayload_eq _ _ _ _ _ _ (hist i) (Hclients i ltac:(lia))).
    unfold client_result, cell. fold (prod i).
    destruct (Nat.eqb_spec i owner) as [->|Hne]; cbn [negb]; [|reflexivity].
    rewrite Hr. unfold k. destruct (random_Int order r) as [k_i r'].
    rewrite key_size_usable by exact Hsize. reflexivity.
  - apply Forall2_map_seq. intros j Hj.
    rewrite (store_eta (trustee_s j)), TrusteeGetContribution_eq. reflexivity.
  - rewrite lookup_map_seq by exact Howner. unfold cell. cbn [Nat.add].
    rewrite Nat.eqb_refl. reflexivity.
  - rewrite (store_eta relay_s), (RelayDecode_eq _ _ _ _ _ _ hr Hrelay).
    unfold relay_result.
    assert (Hkey : relay_key hr
              (map (fun j => scalar_encode (sigma (trustee_pads nClients pad j)))
                 (seq 0 nTrustees))
              (map snd (map cell (seq 0 nClients)))
            = (k + list_sum_Z (map (fun i => (hist i - hr) * pad_sum nTrustees pad i)
                                 (seq 0 nClients))) mod order).
    { unfold relay_key. rewrite !sigma_spec, !map_map.
      rewrite (map_ext_seq
                 (fun j => scalar_decode (scalar_encode (sigma (trustee_pads nClients pad j))))
                 (fun j => sigma (trustee_pads nClients pad j)))
        by (intros; apply scalar_decode_encode, sigma_range).
      rewrite (map_ext_seq
                 (fun i => scalar_decode (snd (cell i)))
                 (fun i => ((if (i =? owner)%nat then k else 0)
                            + sigma (client_pads nTrustees pad i) * hist i) mod order)).
      2: { intros i _. unfold cell, prod.
           destruct (i =? owner)%nat; cbn [snd];
             rewrite scalar_decode_encode by (apply Z.mod_pos_bound; lia).
           - apply Zplus_mod_idemp_r.
           - reflexivity. }
      rewrite list_sum_Z_map_mod, list_sum_Z_map_add.
      rewrite list_sum_Z_owner.
      replace ((0 <=? owner) && (owner <? 0 + nClients))%nat with true.
      2: { symmetry. apply andb_true_intro. split;
             [apply Nat.leb_le | apply Nat.ltb_lt]; lia. }
      rewrite (key_shifted k _
                 (list_sum_Z (map (fun i => pad_sum nTrustees pad i * hist i) (seq 0 nClients)))
                 _
                 (list_sum_Z (map (pad_sum nTrustees pad) (seq 0 nClients))) hr).
      - f_equal. f_equal.
        rewrite <- list_sum_Z_map_mul, <- list_sum_Z_map_sub.
        f_equal. apply map_ext. intros i. lia.
      - apply list_sum_Z_map_congr. intros i.
        rewrite sigma_spec. unfold client_pads. rewrite map_map.
        apply Zmult_mod_idemp_l.
      - apply sigma_trustees_total. }
    rewrite Hkey, length_scalar_encode_nonzero, key_size_usable by exact Hsize.
    change nonce12 with (zeros 12).
    destruct (gcm_Open _ (zeros 12) _ []) as [message|]; [reflexivity|].
    destruct (Nat.ltb_spec (length (gcm_Seal (scalar_encode k) (zeros 12) x [])) 16)
      as [Hl|Hl].
    + replace (_ <? 0) with true by (symmetry; apply Z.ltb_lt; lia). reflexivity.
    + replace (_ <? 0) with false by (symmetry; apply Z.ltb_ge; lia).
      cbn [fst]. repeat f_equal. lia.
Qed.

End DivergedRound.

End EquivocationFacts.

(** ** Runs of the equivocation guard on the small instance *)
Module SuiteRuns.

Import TestSuite.

Lemma order_gt_1 : 1 < order.
Proof. reflexivity. Qed.

Lemma key_size : In MarshalSize [16; 24; 32]%nat.
Proof. right. right. left. vm_compute. reflexivity. Qed.

Lemma random_Int_range r : 0 <= fst (random_Int order r) < order.
Proof.
  change (0 <= (r * 6364136223846793005 + 1442695040888963407) mod ed25519_order
          < ed25519_order).
  apply Z.mod_pos_bound. reflexivity.
Qed.

Lemma bytes_eqb_refl a : bytes_eqb a a = true.
Proof.
  induction a as [|x a IH]; [reflexivity|]. cbn [bytes_eqb].
  rewrite IH, (Byte.byte_dec_lb (eq_refl x)). reflexivity.
Qed.

Lemma length_tag key : length (tag key) = 16%nat.
Proof.
  unfold tag, zeros. rewrite length_firstn, length_app, repeat_length. lia.
Qed.

Lemma gcm_Open_Seal key plaintext :
  gcm_Open key nonce12 (gcm_Seal key nonce12 plaintext []) [] = Some plaintext.
Proof.
  change (standin_Open key nonce12 (standin_Seal key nonce12 plaintext []) []
          = Some plaintext).
  unfold standin_Open, standin_Seal. rewrite length_app, length_tag.
  replace (length plaintext + 16 <? 16)%nat with false
    by (symmetry; apply Nat.ltb_ge; lia).
  replace (length plaintext + 16 - 16)%nat with (length plaintext) by lia.
  rewrite skipn_app, skipn_all, Nat.sub_diag, firstn_app, firstn_all, Nat.sub_diag.
  cbn [skipn firstn app]. rewrite bytes_eqb_refl, app_nil_r. reflexivity.
Qed.

Lemma ClientEncryptPayload_not_slot_owner_witness :
  scalars s0 !! history e0 = Some 1
  /\ fst (ClientEncryptPayload e0 false [xde; xad] [[x03]; [x04]] s0)
     = Ret ([xde; xad],
            scalar_encode ((1 * sigma [[x03]; [x04]]) mod order)).
Proof.
  split; [reflexivity|].
  apply (ClientEncryptPayload_not_slot_owner order_gt_1 e0 [xde; xad]
           [[x03]; [x04]] s0 1).
  reflexivity.
Defined.

Lemma NewEquivocation_history_is_one_witness :
  exists e s',
    NewEquivocation (zeros 32) s0 = (Ret e, s')
    /\ scalars s' !! history e = Some 1
    /\ forall v, 0 <= v < order ->
         (1 * v) mod order = v /\ (v * 1) mod order = v.
Proof.
  exact (NewEquivocation_history_is_one order_gt_1 (zeros 32) s0).
Defined.

Lemma history_only_written_by_UpdateHistory_witness :
  scalars s0 !! history e0 = Some 1
  /\ scalars (snd (RelayDecode e0 (zeros 20) [] [] s0)) !! history e0 = Some 1
  /\ scalars (snd (UpdateHistory e0 [x01] s0)) !! history e0
     = Some (scalar_decode (sha256_Sum256 (zeros (MarshalSize + 1)))).
Proof.
  pose proof (history_only_written_by_UpdateHistory e0 s0 1 eq_refl)
    as (_ & _ & Hrelay & Hupdate).
  split; [reflexivity|]. split; [apply Hrelay | apply (Hupdate [x01])].
Defined.

(** The round of the first end-to-end scenario: two clients, one trustee,
    client 0 owns the slot and sends DEADBEEF. *)
Lemma RelayDecode_honest_round_witness :
  exists cells sigmas x' kappa,
    Forall2 (fun i c =>
               fst (client_call 1 pad0 0%nat [xde; xad; xbe; xef]
                      (fun _ => zeros 4) e0 i s0) = Ret c)
      (seq 0 2) cells
    /\ Forall2 (fun j sg =>
                  fst (TrusteeGetContribution e0 (trustee_pads 2 pad0 j) s0)
                  = Ret sg)
         (seq 0 1) sigmas
    /\ cells !! 0%nat = Some (x', kappa)
    /\ fst (RelayDecode e0 x' sigmas (map snd cells) s0)
       = Ret [xde; xad; xbe; xef].
Proof.
  apply (RelayDecode_honest_round order_gt_1 2 1 pad0 0%nat
           [xde; xad; xbe; xef] (fun _ => zeros 4)
           random_Int_range gcm_Open_Seal key_size
           (fun _ => e0) (fun _ => e0) (fun _ => s0) (fun _ => s0) e0 s0 1).
  - lia.
  - intros i _. reflexivity.
  - exists 7. reflexivity.
  - reflexivity.
Defined.

Lemma RelayDecode_authentication_failure_witness :
  gcm_Open (scalar_encode (relay_key 1 [] [])) nonce12
    (zeros 4 ++ x01 :: zeros 15) [] = None
  /\ fst (RelayDecode e0 (zeros 4 ++ x01 :: zeros 15) [] [] s0) = Ret (zeros 4).
Proof.
  split; [reflexivity|].
  apply (RelayDecode_authentication_failure e0 s0 1
           (zeros 4 ++ x01 :: zeros 15) [] []).
  - reflexivity.
  - reflexivity.
  - reflexivity.
  - cbn. lia.
Defined.

(** C2 at data = [01] and history one: the method and the specification's
    wording leave different histories (with the stand-in hash), and the
    method leaves the same history for [01] and for [02]. *)
Example UpdateHistory_differs_from_specified :
  scalars (snd (UpdateHistory e0 [x01] s0)) !! history e0
    = scalars (snd (UpdateHistory e0 [x02] s0)) !! history e0
  /\ scalars (snd (UpdateHistory e0 [x01] s0)) !! history e0
     <> scalars (snd (UpdateHistory_as_specified e0 [x01] s0)) !! history e0.
Proof. vm_compute. split; [reflexivity | discriminate]. Qed.

(** C5 is not what the code does: a ciphertext whose tag was tampered with
    and the honest encryption of four zero bytes make [RelayDecode] return the
    same bytes and leave the same memory, so nothing the relay gets back tells
    a disrupted round from a round that carried zeros. *)
Lemma RelayDecode_failure_not_flagged :
  let key := scalar_encode (relay_key 1 [] []) in
  let tampered := zeros 4 ++ x01 :: zeros 15 in
  let honest := gcm_Seal key nonce12 (zeros 4) [] in
  gcm_Open key nonce12 tampered [] = None
  /\ gcm_Open key nonce12 honest [] = Some (zeros 4)
  /\ RelayDecode e0 tampered [] [] s0 = RelayDecode e0 honest [] [] s0.
Proof. vm_compute. repeat split. Qed.

(** The scalars of the QR512 group take 64 bytes. *)
Lemma qr512_order_gt_1 : 1 < @order qr512_suite.
Proof. reflexivity. Qed.

Lemma qr512_key_size : ~ In (@MarshalSize qr512_suite) [16; 24; 32]%nat.
Proof.
  assert (E : @MarshalSize qr512_suite = 64%nat) by (vm_compute; reflexivity).
  rewrite E. cbn. intros [H|[H|[H|[]]]]; discriminate.
Qed.

Lemma ClientEncryptPayload_slot_owner_witness :
  fst (ClientEncryptPayload e0 true [xde; xad] [[x03]; [x04]] s0)
    = Ret (gcm_Seal (scalar_encode (fst (counter_Int order 7))) (zeros 12)
             [xde; xad] [],
           scalar_encode
             ((fst (counter_Int order 7) + 1 * sigma [[x03]; [x04]]) mod order))
  /\ xofs (snd (ClientEncryptPayload e0 true [xde; xad] [[x03]; [x04]] s0))
     = <[randomness e0 := 8]> (xofs s0).
Proof.
  apply (ClientEncryptPayload_slot_owner e0 [xde; xad] [[x03]; [x04]] s0 1 7
           (fst (counter_Int order 7)) 8).
  - reflexivity.
  - reflexivity.
  - reflexivity.
  - exact key_size.
Defined.

Lemma streams_only_drawn_by_slot_owner_witness :
  scalars s0 !! history e0 = Some 1
  /\ xofs (snd (ClientEncryptPayload e0 false [xde; xad] [[x03]] s0)) = xofs s0
  /\ xofs (snd (RelayDecode e0 (zeros 20) [] [] s0)) = xofs s0.
Proof.
  pose proof (streams_only_drawn_by_slot_owner e0 s0 1 eq_refl)
    as (Hclient & _ & Hrelay & _).
  split; [reflexivity|]. split; [apply Hclient | apply Hrelay].
Defined.

Lemma unusable_key_size_panics_witness :
  fst (@RelayDecode qr512_suite lib e0 (zeros 20) [] [] qr512_s0)
    = Panic "crypto/aes: invalid key size"
  /\ fst (@ClientEncryptPayload qr512_suite lib e0 true [xde; xad] [[x03]]
            qr512_s0)
     = Panic "crypto/aes: invalid key size".
Proof.
  pose proof (@unusable_key_size_panics qr512_suite lib qr512_order_gt_1
                e0 qr512_s0 1 7 eq_refl eq_refl qr512_key_size)
    as [Hrelay Hclient].
  split; [apply Hrelay | apply Hclient].
Defined.

Lemma RelayDecode_short_ciphertext_panics_witness :
  gcm_Open (scalar_encode (relay_key 1 [] [])) (zeros 12) (zeros 4) [] = None
  /\ fst (RelayDecode e0 (zeros 4) [] [] s0)
     = Panic "makeslice: len out of range".
Proof.
  split; [reflexivity|].
  apply (RelayDecode_short_ciphertext_panics order_gt_1 e0 s0 1 (zeros 4) [] []).
  - reflexivity.
  - exact key_size.
  - reflexivity.
  - cbn. lia.
Defined.

Lemma RelayDecode_order_of_contributions_witness :
  fst (RelayDecode e0 (zeros 20) [[x01]; [x02]] [[x03]; [x04]] s0)
  = fst (RelayDecode e0 (zeros 20) [[x02]; [x01]] [[x04]; [x03]] s0).
Proof.
  apply (RelayDecode_order_of_contributions order_gt_1 e0 s0 1).
  - reflexivity.
  - apply perm_swap.
  - apply perm_swap.
Defined.

Lemma contribution_order_of_pads_witness :
  fst (ClientEncryptPayload e0 true [xde; xad] [[x03]; [x04]] s0)
  = fst (ClientEncryptPayload e0 true [xde; xad] [[x04]; [x03]] s0)
  /\ fst (TrusteeGetContribution e0 [[x03]; [x04]] s0)
     = fst (TrusteeGetContribution e0 [[x04]; [x03]] s0).
Proof.
  pose proof (contribution_order_of_pads order_gt_1 e0 s0 1
                [[x03]; [x04]] [[x04]; [x03]] eq_refl (perm_swap _ _ _))
    as [Hclient Htrustee].
  split; [apply Hclient | exact Htrustee].
Defined.

Lemma new_state_kappa_is_sigma_witness :
  exists e s' kappa,
    NewEquivocation (zeros 32) s0 = (Ret e, s')
    /\ fst (ClientEncryptPayload e false [xde; xad] [[x03]; [x04]] s')
       = Ret ([xde; xad], kappa)
    /\ fst (TrusteeGetContribution e [[x03]; [x04]] s') = Ret kappa.
Proof.
  exact (new_state_kappa_is_sigma order_gt_1 (zeros 32) s0 [xde; xad]
           [[x03]; [x04]]).
Defined.

(** Two participants with the histories one and five. *)
Lemma UpdateHistory_depends_on_length_only_witness :
  scalars (snd (UpdateHistory e0 [x01; x02] s0)) !! history e0
  = scalars (snd (UpdateHistory e0 [xff; xfe] (s5))) !! history e0.
Proof.
  apply (UpdateHistory_depends_on_length_only e0 s0 1 [x01; x02]
           e0 (s5) 5 [xff; xfe]); reflexivity.
Defined.

Lemma scalars_stay_reduced_witness :
  reduced s0
  /\ reduced (snd (ClientEncryptPayload e0 true [xde; xad] [[x03]] s0))
  /\ reduced (snd (UpdateHistory e0 [x01] s0)).
Proof.
  assert (Hs0 : reduced s0).
  { unfold reduced. cbn. constructor; [|constructor].
    split; [lia | reflexivity]. }
  pose proof (scalars_stay_reduced order_gt_1 e0 s0 1 random_Int_range
                eq_refl Hs0) as (Hclient & _ & _ & Hupdate & _).
  split; [exact Hs0|]. split; [apply Hclient | apply Hupdate].
Defined.

(** Two clients and one trustee; client 1 holds the history five, client 0
    and the relay the history one. *)
Lemma RelayDecode_key_when_histories_differ_witness :
  exists cells sigmas x' kappa,
    Forall2 (fun i c =>
               fst (client_call 1 pad0 0%nat [xde; xad; xbe; xef]
                      (fun _ => zeros 4) e0 i
                      (if (i =? 1)%nat then s5 else s0)) = Ret c)
      (seq 0 2) cells
    /\ Forall2 (fun j sg =>
                  fst (TrusteeGetContribution e0 (trustee_pads 2 pad0 j) s0)
                  = Ret sg)
         (seq 0 1) sigmas
    /\ cells !! 0%nat = Some (x', kappa)
    /\ fst (RelayDecode e0 x' sigmas (map snd cells) s0)
       = match gcm_Open
                 (scalar_encode
                    ((fst (random_Int order 7)
                      + list_sum_Z
                          (map (fun i => ((if (i =? 1)%nat then 5 else 1) - 1)
                                         * pad_sum 1 pad0 i)
                             (seq 0 2))) mod order))
                 (zeros 12) x' [] with
         | Some message => Ret message
         | None =>
             if (length x' <? 16)%nat then Panic "makeslice: len out of range"
             else Ret (zeros (length x' - 16))
         end.
Proof.
  apply (RelayDecode_key_when_histories_differ order_gt_1 2 1 pad0 0%nat
           [xde; xad; xbe; xef] (fun _ => zeros 4)
           (fun _ => e0) (fun _ => e0)
           (fun i => if (i =? 1)%nat then s5 else s0) (fun _ => s0)
           e0 s0 (fun i => if (i =? 1)%nat then 5 else 1) 1 7).
  - exact random_Int_range.
  - exact key_size.
  - lia.
  - intros i _. destruct (i =? 1)%nat; reflexivity.
  - reflexivity.
  - reflexivity.
Defined.

Lemma calls_only_allocate_witness :
  scalars s0 !! history e0 = Some 1
  /\ scalars s0 `prefix_of`
       scalars (snd (ClientEncryptPayload e0 true [xde; xad] [[x03]] s0))
  /\ scalars s0 `prefix_of` scalars (snd (RelayDecode e0 (zeros 20) [] [] s0))
  /\ length (scalars (snd (UpdateHistory e0 [x01] s0))) = length (scalars s0).
Proof.
  pose proof (calls_only_allocate e0 s0 1 eq_refl)
    as (Hclient & _ & Hrelay & _ & Hupdate).
  split; [reflexivity|]. split; [apply Hclient|].
  split; [apply Hrelay | apply (Hupdate [x01])].
Defined.

End SuiteRuns.

(** ** The suite of quadratic residues *)

Lemma pow_mod_spec b e m : qrsuite.pow_mod b e m = (b ^ Z.pos e) mod m.
Proof.
  induction e as [e IH|e IH|]; cbn [qrsuite.pow_mod].
  - rewrite IH, Pos2Z.inj_xI.
    replace (2 * Z.pos e + 1) with (Z.pos e + Z.pos e + 1) by lia.
    rewrite !Z.pow_add_r, Z.pow_1_r by lia.
    rewrite <- Zmult_mod, Zmult_mod_idemp_l. reflexivity.
  - rewrite IH, Pos2Z.inj_xO.
    replace (2 * Z.pos e) with (Z.pos e + Z.pos e) by lia.
    rewrite Z.pow_add_r by lia.
    rewrite <- Zmult_mod. reflexivity.
  - rewrite Z.pow_1_r. reflexivity.
Qed.

(** X18. The constants of [NewAES128SHA256QR512] fit together as the
    parameters of a Schnorr group: the modulus has 512 bits and is
    [Q] * [R] + 1 with the cofactor [R] = 2, the generator 4 is the square
    [R] ^ 2, a quadratic residue other than 1, and its [Q]-th power is 1
    modulo [P], so its order divides [Q]. *)
Theorem NewAES128SHA256QR512_parameters :
  let g := qrsuite.NewAES128SHA256QR512 in
  qrsuite.P g = qrsuite.Q g * qrsuite.R g + 1
  /\ qrsuite.G g = qrsuite.R g ^ 2
  /\ 1 < qrsuite.G g < qrsuite.P g
  /\ (qrsuite.G g ^ qrsuite.Q g) mod qrsuite.P g = 1
  /\ Z.log2 (qrsuite.P g) = 511
  /\ Z.log2 (qrsuite.Q g) = 510.
Proof.
  cbn zeta.
  split; [vm_compute; reflexivity|].
  split; [vm_compute; reflexivity|].
  split; [split; vm_compute; reflexivity|].
  split; [|split; vm_compute; reflexivity].
  unfold qrsuite.NewAES128SHA256QR512, qrsuite.SetParams.
  cbn [qrsuite.P qrsuite.Q qrsuite.G].
  match goal with
  | |- (?b ^ Z.pos ?e) mod ?m = 1 => rewrite <- (pow_mod_spec b e m)
  end.
  vm_compute. reflexivity.
Qed.

(** ** The trustee's connection handler *)

(** *** The layout of the answer *)

Lemma blit_skip (A L : bytes) (off off' : nat) (Y : bytes) :
  off = (length A + off')%nat -> blit (A ++ L) off Y = A ++ blit L off' Y.
Proof.
  intros ->. unfold blit.
  rewrite firstn_app, skipn_app.
  rewrite firstn_all2 by lia. rewrite (skipn_all2 A) by lia.
  replace (length A + off' - length A)%nat with off' by lia.
  replace (length A + off' + length Y - length A)%nat
    with (off' + length Y)%nat by lia.
  rewrite <- !app_assoc. reflexivity.
Qed.

Lemma blit_here (X B Y : bytes) :
  length X = length Y -> blit (X ++ B) 0 Y = Y ++ B.
Proof.
  intros HXY. unfold blit. cbn [firstn Nat.add app].
  rewrite skipn_app, <- HXY, skipn_all, Nat.sub_diag. reflexivity.
Qed.

Lemma length_PutUint32 v : length (PutUint32 v) = 4%nat.
Proof. apply length_be_encode. Qed.

Lemma compose_message_eq (base2Bytes ephPublicKeys2Bytes proof : bytes) :
  compose_message base2Bytes ephPublicKeys2Bytes proof
  = PutUint32 (Z.of_nat (length base2Bytes)) ++ base2Bytes
    ++ PutUint32 (Z.of_nat (length ephPublicKeys2Bytes)) ++ ephPublicKeys2Bytes
    ++ PutUint32 (Z.of_nat (length proof)) ++ proof.
Proof.
  unfold compose_message.
  set (lb := length base2Bytes). set (lk := length ephPublicKeys2Bytes).
  set (lp := length proof).
  set (U1 := PutUint32 (Z.of_nat lb)). set (U2 := PutUint32 (Z.of_nat lk)).
  set (U3 := PutUint32 (Z.of_nat lp)).
  assert (H1 : length U1 = 4%nat) by apply length_PutUint32.
  assert (H2 : length U2 = 4%nat) by apply length_PutUint32.
  assert (H3 : length U3 = 4%nat) by apply length_PutUint32.
  replace (12 + lb + lk + lp)%nat with (4 + (lb + (4 + (lk + (4 + lp)))))%nat by lia.
  rewrite !zeros_app.
  rewrite (blit_here (zeros 4) _ U1) by (rewrite H1; reflexivity).
  rewrite (blit_skip U1 _ (4 + lb) lb) by lia.
  rewrite (blit_skip (zeros lb) _ lb 0) by (rewrite length_zeros; lia).
  rewrite (blit_here (zeros 4) _ U2) by (rewrite H2; reflexivity).
  rewrite (blit_skip U1 _ (8 + lb + lk) (4 + lb + lk)) by lia.
  rewrite (blit_skip (zeros lb) _ (4 + lb + lk) (4 + lk)) by (rewrite length_zeros; lia).
  rewrite (blit_skip U2 _ (4 + lk) lk) by lia.
  rewrite (blit_skip (zeros lk) _ lk 0) by (rewrite length_zeros; lia).
  rewrite (blit_here (zeros 4) _ U3) by (rewrite H3; reflexivity).
  rewrite (blit_skip U1 _ 4 0) by lia.
  rewrite (blit_here (zeros lb) _ base2Bytes) by apply length_zeros.
  rewrite (blit_skip U1 _ (8 + lb) (4 + lb)) by lia.
  rewrite (blit_skip base2Bytes _ (4 + lb) 4) by (fold lb; lia).
  rewrite (blit_skip U2 _ 4 0) by lia.
  rewrite (blit_here (zeros lk) _ ephPublicKeys2Bytes) by apply length_zeros.
  rewrite (blit_skip U1 _ (12 + lb + lk) (8 + lb + lk)) by lia.
  rewrite (blit_skip base2Bytes _ (8 + lb + lk) (8 + lk)) by (fold lb; lia).
  rewrite (blit_skip U2 _ (8 + lk) (4 + lk)) by lia.
  rewrite (blit_skip ephPublicKeys2Bytes _ (4 + lk) 4) by (fold lk; lia).
  rewrite (blit_skip U3 _ 4 0) by lia.
  rewrite <- (app_nil_r (zeros lp)).
  rewrite (blit_here (zeros lp) [] proof) by apply length_zeros.
  rewrite app_nil_r. reflexivity.
Qed.

(** *** Running the handler *)

Lemma hbind_eq {A B} (m : Handler A) (k : A -> Handler B) c a c' :
  m c = (inl a, c') -> (m ≫= k) c = k a c'.
Proof. unfold mbind, Handler_bind, hbind. intros ->. reflexivity. Qed.

Lemma fmap_eq {A B} (f : A -> B) (m : Handler A) c a c' :
  m c = (inl a, c') -> (f <$> m) c = (inl (f a), c').
Proof. unfold fmap, Handler_fmap, hbind. intros ->. reflexivity. Qed.

Lemma slice_segment (buffer A X B : bytes) (lo hi : Z) c :
  buffer = A ++ X ++ B ->
  lo = Z.of_nat (length A) -> hi = lo + Z.of_nat (length X) ->
  slice buffer lo hi c = (inl X, c).
Proof.
  intros -> -> ->. unfold slice.
  replace ((0 <=? Z.of_nat (length A))
           && (Z.of_nat (length A) <=? Z.of_nat (length A) + Z.of_nat (length X))
           && (Z.of_nat (length A) + Z.of_nat (length X)
               <=? Z.of_nat (length (A ++ X ++ B)))) with true.
  2: { symmetry. rewrite !andb_true_iff, !Z.leb_le, !length_app. lia. }
  unfold hret. f_equal. f_equal.
  rewrite Nat2Z.id.
  replace (Z.to_nat (Z.of_nat (length A) + Z.of_nat (length X) - Z.of_nat (length A)))
    with (length X) by lia.
  rewrite skipn_app, skipn_all, Nat.sub_diag.
  change ([] ++ skipn 0 (X ++ B)) with (X ++ B).
  rewrite firstn_app, firstn_all, Nat.sub_diag.
  change (firstn 0 B) with (@nil byte). apply app_nil_r.
Qed.

Lemma Uint32_PutUint32 v tail :
  0 <= v < 2 ^ 32 -> Uint32 (PutUint32 v ++ tail) = v.
Proof.
  intros Hv. unfold Uint32, PutUint32.
  rewrite firstn_app, length_be_encode. cbn [Nat.sub firstn].
  rewrite app_nil_r, firstn_all2 by (rewrite length_be_encode; lia).
  rewrite be_decode_encode. apply Z.mod_small. cbn. lia.
Qed.

Lemma conn_Read_ok buffer data rest out :
  conn_Read buffer {| incoming := ReadOk data :: rest; done := out |}
  = (inl (read_into buffer data, true), {| incoming := rest; done := out |}).
Proof. reflexivity. Qed.

Lemma length_read_into buffer data :
  length (read_into buffer data) = length buffer.
Proof.
  unfold read_into. rewrite length_app, length_skipn, length_firstn. lia.
Qed.

Lemma read_into_short buffer data :
  (length data <= length buffer)%nat ->
  read_into buffer data = data ++ skipn (length data) buffer.
Proof. intros H. unfold read_into. rewrite firstn_all2 by lia. reflexivity. Qed.

Lemma read_into_version buffer data :
  (4 <= length data)%nat -> (4 <= length buffer)%nat ->
  Uint32 (read_into buffer data) = be_decode (firstn 4 data).
Proof.
  intros Hd Hb. unfold Uint32, read_into.
  rewrite firstn_app, firstn_firstn, length_firstn.
  replace (4 `min` length buffer)%nat with 4%nat by lia.
  replace (4 - length buffer `min` length data)%nat with O by lia.
  cbn [firstn]. rewrite app_nil_r. reflexivity.
Qed.

Lemma conn_Write_eq fails message c :
  fails (done c) message = false ->
  conn_Write fails message c
  = (inl true, {| incoming := incoming c; done := done c ++ [EvWrite message] |}).
Proof. intros H. unfold conn_Write. rewrite H. reflexivity. Qed.

Lemma conn_Write_fails fails message c :
  fails (done c) message = true -> conn_Write fails message c = (inl false, c).
Proof. intros H. unfold conn_Write. rewrite H. reflexivity. Qed.

Lemma hbind_inv {A B} (m : Handler A) (k : A -> Handler B) c b c' :
  (m ≫= k) c = (inl b, c') ->
  exists a c1, m c = (inl a, c1) /\ k a c1 = (inl b, c').
Proof.
  unfold mbind, Handler_bind, hbind.
  destruct (m c) as [[a|how] c1]; [eauto | discriminate].
Qed.

(** *** The first read and the exchange of keys *)

Lemma slice_ok (buffer : bytes) (lo hi : Z) c :
  0 <= lo -> lo <= hi -> hi <= Z.of_nat (length buffer) ->
  slice buffer lo hi c
  = (inl (firstn (Z.to_nat (hi - lo)) (skipn (Z.to_nat lo) buffer)), c).
Proof.
  intros H1 H2 H3. unfold slice.
  replace ((0 <=? lo) && (lo <=? hi) && (hi <=? Z.of_nat (length buffer)))
    with true; [reflexivity|].
  symmetry. rewrite !andb_true_iff, !Z.leb_le. auto.
Qed.

Lemma slice_out (buffer : bytes) (lo hi : Z) c :
  Z.of_nat (length buffer) < hi ->
  slice buffer lo hi c = (inr (Panicked "slice bounds out of range"), c).
Proof.
  intros H. unfold slice.
  replace (hi <=? Z.of_nat (length buffer)) with false
    by (symmetry; apply Z.leb_gt; exact H).
  rewrite andb_false_r. reflexivity.
Qed.

(** Reading the 32-bit word at [lo]. *)
Lemma slice_word (buffer : bytes) (lo hi : Z) c :
  0 <= lo -> hi = lo + 4 -> hi <= Z.of_nat (length buffer) ->
  (Uint32 <$> slice buffer lo hi) c
  = (inl (Uint32 (skipn (Z.to_nat lo) buffer)), c).
Proof.
  intros H1 -> H3.
  rewrite (fmap_eq Uint32 _ _ _ _ (slice_ok buffer lo (lo + 4) c H1 ltac:(lia) H3)).
  replace (lo + 4 - lo) with 4 by lia.
  unfold Uint32. change (Z.to_nat 4) with 4%nat.
  rewrite firstn_firstn. reflexivity.
Qed.

Lemma fmap_stop {A B} (f : A -> B) (m : Handler A) c how c' :
  m c = (inr how, c') -> (f <$> m) c = (inr how, c').
Proof. unfold fmap, Handler_fmap, hbind. intros ->. reflexivity. Qed.

Lemma hbind_stop {A B} (m : Handler A) (k : A -> Handler B) c how c' :
  m c = (inr how, c') -> (m ≫= k) c = (inr how, c').
Proof. unfold mbind, Handler_bind, hbind. intros ->. reflexivity. Qed.

Lemma forallb_not_nil_Some {A} (l : list A) : forallb not_nil (map Some l) = true.
Proof. induction l as [|a l IH]; [reflexivity | exact IH]. Qed.

Lemma take_S_insert {A} (l : list A) (i : nat) (x : A) :
  (i < length l)%nat -> take (S i) (<[i := x]> l) = take i l ++ [x].
Proof.
  intros Hi. rewrite insert_take_drop by exact Hi.
  rewrite take_app_ge by (rewrite length_take; lia).
  rewrite length_take. replace (S i - i `min` length l)%nat with 1%nat by lia.
  reflexivity.
Qed.

Lemma be_decode_nonneg bs : 0 <= be_decode bs.
Proof.
  induction bs as [|b bs IH] using rev_ind; [reflexivity|].
  rewrite be_decode_app. pose proof (Z_of_byte_range b). lia.
Qed.

Lemma skipn_zeros k n : skipn k (zeros n) = zeros (n - k).
Proof.
  revert k. induction n as [|n IH]; intros k.
  - destruct k; reflexivity.
  - destruct k as [|k]; [reflexivity|]. cbn [zeros repeat skipn Nat.sub].
    apply IH.
Qed.

Lemma be_decode_zeros n : be_decode (zeros n) = 0.
Proof.
  induction n as [|n IH]; [reflexivity|].
  replace (S n) with (n + 1)%nat by lia.
  rewrite zeros_app. change (zeros 1) with [x00].
  rewrite be_decode_app, IH. reflexivity.
Qed.

Lemma firstn_zeros k n : firstn k (zeros n) = zeros (Nat.min k n).
Proof.
  revert k. induction n as [|n IH]; intros k.
  - destruct k; reflexivity.
  - destruct k as [|k]; [reflexivity|]. cbn [zeros repeat firstn Nat.min].
    f_equal. apply IH.
Qed.

(** A field that lies beyond the end of the first frame reads as zero: the
    buffer was made of zeros. *)
Lemma field_beyond_frame data k :
  (length data <= k)%nat ->
  Uint32 (skipn k (read_into (zeros 1024) data)) = 0.
Proof.
  intros Hk. unfold read_into. rewrite length_zeros.
  rewrite skipn_app, length_firstn.
  rewrite (skipn_all2 (firstn 1024 data)) by (rewrite length_firstn; lia).
  rewrite !skipn_zeros. cbn [app]. unfold Uint32.
  rewrite firstn_zeros. apply be_decode_zeros.
Qed.

Section TrusteeFacts.

Context {env : TrusteeEnv}.

(** C6. When the leading big-endian 32-bit version of the buffer the first
    frame was read into (for a frame of four bytes or more, its first four
    bytes: [read_into_version]) is not the handler's own, the handler returns
    at once: the connection is closed, nothing was written to it and nothing
    more is read from it. *)
Theorem handleConnection_version_mismatch data rest out :
  Uint32 (read_into (zeros 1024) data) <> LLD_PROTOCOL_VERSION ->
  handleConnection {| incoming := ReadOk data :: rest; done := out |}
  = (Returned, {| incoming := rest; done := out ++ [EvClose] |}).
Proof.
  intros Hver. unfold handleConnection, handleConnection_body.
  assert (Hex : exchange_keys {| incoming := ReadOk data :: rest; done := out |}
                = (inr Returned, {| incoming := rest; done := out |})).
  { unfold exchange_keys.
    rewrite (hbind_eq _ _ _ _ _ (conn_Read_ok _ _ _ _)). cbn [negb].
    set (buffer := read_into (zeros 1024) data) in *.
    assert (Hbuf : length buffer = 1024%nat)
      by (unfold buffer; rewrite length_read_into; apply length_zeros).
    rewrite (hbind_eq _ _ _ _ _
               (slice_segment buffer [] (firstn 4 buffer) (skipn 4 buffer) 0 4 _
                  (eq_sym (firstn_skipn 4 buffer)) eq_refl
                  ltac:(rewrite length_firstn, Hbuf; reflexivity))).
    unfold Uint32 at 1. rewrite firstn_firstn. cbn [Nat.min].
    fold (Uint32 buffer).
    apply Z.eqb_neq in Hver. rewrite Hver. reflexivity. }
  unfold mbind, Handler_bind, hbind. rewrite Hex. reflexivity.
Qed.

Lemma exchange_keys_buffer c buffer st c' :
  exchange_keys c = (inl (buffer, st), c') -> length buffer = 1024%nat.
Proof.
  unfold exchange_keys. intros H.
  apply hbind_inv in H as ([buf ok] & c1 & Hread & H).
  assert (Hbuf : length buf = 1024%nat).
  { unfold conn_Read in Hread.
    destruct (incoming c) as [|[data|] rest]; inversion Hread; subst;
      try apply length_zeros.
    apply (length_read_into (zeros 1024) data). }
  destruct ok; cbn [negb] in H; [|discriminate].
  apply hbind_inv in H as (version_bytes & c2 & _ & H).
  destruct (negb (Uint32 version_bytes =? LLD_PROTOCOL_VERSION)); [discriminate|].
  repeat (apply hbind_inv in H as (? & ? & _ & H)).
  match type of H with
  | (if ?b then _ else _) _ = _ => destruct b; [discriminate|]
  end.
  inversion H. subst. exact Hbuf.
Qed.

(** What the handler does with a well-formed shuffle request, whether the
    write of the answer goes well or fails. *)
Lemma handleConnection_shuffle_outcome c0 buffer st request rest out
    baseBytes keysBytes tail base keys base2Bytes :
  let answer :=
    PutUint32 (Z.of_nat (length base2Bytes)) ++ base2Bytes
    ++ PutUint32 (Z.of_nat (length (MarshalPublicKeyArrayToByteArray keys)))
    ++ MarshalPublicKeyArrayToByteArray keys
    ++ PutUint32 50 ++ zeros 50 in
  exchange_keys c0
    = (inl (buffer, st), {| incoming := ReadOk request :: rest; done := out |}) ->
  request = PutUint32 (Z.of_nat (length baseBytes)) ++ baseBytes
            ++ PutUint32 (Z.of_nat (length keysBytes)) ++ keysBytes ++ tail ->
  (length request <= 1024)%nat ->
  Point_UnmarshalBinary baseBytes = Some base ->
  (forall c, UnMarshalPublicKeyArrayFromByteArray keysBytes c = (inl keys, c)) ->
  Point_MarshalBinary base = Some base2Bytes ->
  handleConnection c0
  = if Write_fails out answer then
      (Panicked "invalid memory address or nil pointer dereference",
       {| incoming := rest; done := out ++ [EvClose] |})
    else
      (SleepsForever, {| incoming := rest; done := out ++ [EvWrite answer] |}).
Proof.
  intros answer Hex Hreq Hlen Hbase Hkeys Hmarshal.
  pose proof (exchange_keys_buffer _ _ _ _ Hex) as Hbuf.
  unfold handleConnection, handleConnection_body.
  rewrite (hbind_eq _ _ _ _ _ Hex).
  unfold answer_shuffle.
  rewrite (hbind_eq _ _ _ _ _ (conn_Read_ok _ _ _ _)). cbn [negb].
  rewrite read_into_short by lia.
  set (stale := skipn (length request) buffer).
  set (lb := Z.of_nat (length baseBytes)) in *.
  set (lk := Z.of_nat (length keysBytes)) in *.
  assert (Hlb : 0 <= lb < 2 ^ 32).
  { subst request. rewrite !length_app in Hlen. cbn. lia. }
  assert (Hlk : 0 <= lk < 2 ^ 32).
  { subst request. rewrite !length_app in Hlen. cbn. lia. }
  set (buf := request ++ stale).
  assert (E : buf = PutUint32 lb ++ baseBytes ++ PutUint32 lk ++ keysBytes
                    ++ (tail ++ stale)).
  { unfold buf. rewrite Hreq, <- !app_assoc. reflexivity. }
  rewrite (hbind_eq _ _ _ (Uint32 (PutUint32 lb)) _
             (fmap_eq Uint32 _ _ _ _
                (slice_segment buf [] (PutUint32 lb) _ 0 4 _ E eq_refl
                   ltac:(rewrite length_PutUint32; reflexivity)))).
  rewrite <- (app_nil_r (PutUint32 lb)), Uint32_PutUint32 by exact Hlb.
  rewrite (hbind_eq _ _ _ (Uint32 (PutUint32 lk)) _
             (fmap_eq Uint32 _ _ _ _
                (slice_segment buf (PutUint32 lb ++ baseBytes) (PutUint32 lk)
                   (keysBytes ++ tail ++ stale) (4 + lb) (8 + lb) _
                   ltac:(rewrite E, <- !app_assoc; reflexivity)
                   ltac:(rewrite length_app, length_PutUint32; lia)
                   ltac:(rewrite length_PutUint32; lia)))).
  rewrite <- (app_nil_r (PutUint32 lk)), Uint32_PutUint32 by exact Hlk.
  rewrite (hbind_eq _ _ _ _ _
             (slice_segment buf (PutUint32 lb) baseBytes _ 4 (4 + lb) _ E
                ltac:(rewrite length_PutUint32; reflexivity) eq_refl)).
  rewrite (hbind_eq _ _ _ _ _
             (slice_segment buf (PutUint32 lb ++ baseBytes ++ PutUint32 lk)
                keysBytes (tail ++ stale) (8 + lb) (8 + lb + lk) _
                ltac:(rewrite E, <- !app_assoc; reflexivity)
                ltac:(rewrite !length_app, !length_PutUint32; lia) eq_refl)).
  rewrite Hbase.
  rewrite (hbind_eq _ _ _ _ _ (Hkeys _)).
  rewrite Hmarshal.
  rewrite compose_message_eq, length_zeros. fold answer.
  destruct (Write_fails out answer) eqn:Hw.
  - rewrite (hbind_eq _ _ _ _ _
               (conn_Write_fails Write_fails answer
                  {| incoming := rest; done := out |} Hw)).
    reflexivity.
  - rewrite (hbind_eq _ _ _ _ _
               (conn_Write_eq Write_fails answer
                  {| incoming := rest; done := out |} Hw)).
    reflexivity.
Qed.


(** C4 (as the code has it). Once the keys are exchanged, the answer that
    the handler writes to a well-formed shuffle request, when the write goes
    well, is the base the request carried, the ephemeral keys it carried in
    the order they came, and fifty zero bytes where the proof goes; it is
    all that is written for the request. *)
Theorem handleConnection_shuffle_answer c0 buffer st request rest out
    baseBytes keysBytes tail base keys base2Bytes :
  let answer :=
    PutUint32 (Z.of_nat (length base2Bytes)) ++ base2Bytes
    ++ PutUint32 (Z.of_nat (length (MarshalPublicKeyArrayToByteArray keys)))
    ++ MarshalPublicKeyArrayToByteArray keys
    ++ PutUint32 50 ++ zeros 50 in
  exchange_keys c0
    = (inl (buffer, st), {| incoming := ReadOk request :: rest; done := out |}) ->
  request = PutUint32 (Z.of_nat (length baseBytes)) ++ baseBytes
            ++ PutUint32 (Z.of_nat (length keysBytes)) ++ keysBytes ++ tail ->
  (length request <= 1024)%nat ->
  Point_UnmarshalBinary baseBytes = Some base ->
  (forall c, UnMarshalPublicKeyArrayFromByteArray keysBytes c = (inl keys, c)) ->
  Point_MarshalBinary base = Some base2Bytes ->
  Write_fails out answer = false ->
  snd (handleConnection c0)
  = {| incoming := rest; done := out ++ [EvWrite answer] |}.
Proof.
  intros answer Hex Hreq Hlen Hbase Hkeys Hmarshal Hwrite.
  rewrite (handleConnection_shuffle_outcome c0 buffer st request rest out
             baseBytes keysBytes tail base keys base2Bytes
             Hex Hreq Hlen Hbase Hkeys Hmarshal).
  cbn zeta. fold answer. rewrite Hwrite. reflexivity.
Qed.

(** X21. When the write of the answer to a well-formed shuffle request
    fails, the handler panics and the connection is closed.  The panic is
    not the one the code spells out: its message calls [Error] on the error
    of the marshalling, which is nil. *)
Theorem handleConnection_answer_write_fails c0 buffer st request rest out
    baseBytes keysBytes tail base keys base2Bytes :
  let answer :=
    PutUint32 (Z.of_nat (length base2Bytes)) ++ base2Bytes
    ++ PutUint32 (Z.of_nat (length (MarshalPublicKeyArrayToByteArray keys)))
    ++ MarshalPublicKeyArrayToByteArray keys
    ++ PutUint32 50 ++ zeros 50 in
  exchange_keys c0
    = (inl (buffer, st), {| incoming := ReadOk request :: rest; done := out |}) ->
  request = PutUint32 (Z.of_nat (length baseBytes)) ++ baseBytes
            ++ PutUint32 (Z.of_nat (length keysBytes)) ++ keysBytes ++ tail ->
  (length request <= 1024)%nat ->
  Point_UnmarshalBinary baseBytes = Some base ->
  (forall c, UnMarshalPublicKeyArrayFromByteArray keysBytes c = (inl keys, c)) ->
  Point_MarshalBinary base = Some base2Bytes ->
  Write_fails out answer = true ->
  handleConnection c0
  = (Panicked "invalid memory address or nil pointer dereference",
     {| incoming := rest; done := out ++ [EvClose] |}).
Proof.
  intros answer Hex Hreq Hlen Hbase Hkeys Hmarshal Hwrite.
  rewrite (handleConnection_shuffle_outcome c0 buffer st request rest out
             baseBytes keysBytes tail base keys base2Bytes
             Hex Hreq Hlen Hbase Hkeys Hmarshal).
  cbn zeta. fold answer. rewrite Hwrite. reflexivity.
Qed.

(** The loop that stores the keys, when there is room for all of them. *)
Lemma store_keys_ok st i keys c :
  (i + length keys <= length (ClientPublicKeys st))%nat ->
  length (sharedSecrets st) = length (ClientPublicKeys st) ->
  exists st',
    store_keys st i keys c = (inl st', c)
    /\ ClientPublicKeys st'
       = take i (ClientPublicKeys st) ++ map Some keys
         ++ drop (i + length keys) (ClientPublicKeys st)
    /\ sharedSecrets st'
       = take i (sharedSecrets st)
         ++ map (fun key => Some (Point_Mul key (privateKey st))) keys
         ++ drop (i + length keys) (sharedSecrets st)
    /\ privateKey st' = privateKey st /\ PublicKey st' = PublicKey st.
Proof.
  revert st i. induction keys as [|key keys IH]; intros st i Hlen Hss.
  - exists st. cbn [store_keys length map app]. rewrite Nat.add_0_r, !take_drop.
    repeat split; reflexivity.
  - cbn [length] in Hlen. cbn [store_keys].
    replace (i <? length (ClientPublicKeys st))%nat with true
      by (symmetry; apply Nat.ltb_lt; lia).
    match goal with
    | |- context [store_keys ?st1 (S i) keys c] =>
        destruct (IH st1 (S i)) as (st' & Hrun & Hcpk & Hsec & Hpriv & Hpub)
    end.
    { cbn [ClientPublicKeys]. rewrite length_insert. lia. }
    { cbn [ClientPublicKeys sharedSecrets]. rewrite !length_insert. exact Hss. }
    exists st'. split; [exact Hrun|].
    cbn [ClientPublicKeys sharedSecrets privateKey PublicKey]
      in Hcpk, Hsec, Hpriv, Hpub.
    rewrite Hcpk, Hsec.
    rewrite !take_S_insert, !drop_insert_lt by lia.
    cbn [length map]. rewrite <- !app_assoc. cbn [app].
    replace (S i + length keys)%nat with (i + S (length keys))%nat by lia.
    repeat split; assumption.
Qed.

(** The same loop when there are more keys than places. *)
Lemma store_keys_overflow st i keys c :
  (i <= length (ClientPublicKeys st))%nat ->
  (length (ClientPublicKeys st) < i + length keys)%nat ->
  store_keys st i keys c = (inr (Panicked "index out of range"), c).
Proof.
  revert st i. induction keys as [|key keys IH]; intros st i Hi Hlen.
  - cbn [length] in Hlen. lia.
  - cbn [length] in Hlen. cbn [store_keys].
    destruct (Nat.ltb_spec i (length (ClientPublicKeys st))) as [Hlt|Hge];
      [|reflexivity].
    apply IH; cbn [ClientPublicKeys]; rewrite length_insert; lia.
Qed.

(** The handler up to the keys it is handed, on a first frame whose version
    is the handler's. *)
Lemma exchange_keys_hello data rest out :
  Uint32 (read_into (zeros 1024) data) = LLD_PROTOCOL_VERSION ->
  exchange_keys {| incoming := ReadOk data :: rest; done := out |}
  = (let buffer := read_into (zeros 1024) data in
     let trusteeState :=
       initiateTrusteeState (Uint32 (skipn 16 buffer)) (Uint32 (skipn 8 buffer))
         (Uint32 (skipn 12 buffer)) (Uint32 (skipn 4 buffer)) in
     _ ← TellPublicKey LLD_PROTOCOL_VERSION (PublicKey trusteeState);
     clientsPublicKeys ← UnMarshalPublicKeyArrayFromConnection;
     trusteeState ← store_keys trusteeState 0 clientsPublicKeys;
     if negb (forallb not_nil (ClientPublicKeys trusteeState)) then
       stop (Panicked "Trustee : didn't get the public key from client")
     else mret (buffer, trusteeState))
      {| incoming := rest; done := out |}.
Proof.
  intros Hver. unfold exchange_keys.
  rewrite (hbind_eq _ _ _ _ _ (conn_Read_ok _ _ _ _)). cbn [negb].
  set (buffer := read_into (zeros 1024) data) in *.
  assert (Hbuf : Z.of_nat (length buffer) = 1024).
  { unfold buffer. rewrite length_read_into, length_zeros. reflexivity. }
  rewrite (hbind_eq _ _ _ _ _ (slice_ok buffer 0 4 _ ltac:(lia) ltac:(lia) ltac:(lia))).
  unfold Uint32 at 1. change (Z.to_nat (4 - 0)) with 4%nat.
  change (Z.to_nat 0) with 0%nat. change (skipn 0 buffer) with buffer.
  rewrite firstn_firstn. cbn [Nat.min]. fold (Uint32 buffer).
  rewrite Hver, Z.eqb_refl. cbn [negb].
  rewrite (hbind_eq _ _ _ _ _ (slice_word buffer 4 8 _ ltac:(lia) eq_refl ltac:(lia))).
  rewrite (hbind_eq _ _ _ _ _ (slice_word buffer 8 12 _ ltac:(lia) eq_refl ltac:(lia))).
  rewrite (hbind_eq _ _ _ _ _ (slice_word buffer 12 16 _ ltac:(lia) eq_refl ltac:(lia))).
  rewrite (hbind_eq _ _ _ _ _ (slice_word buffer 16 20 _ ltac:(lia) eq_refl ltac:(lia))).
  reflexivity.
Qed.

(** X14. When the first frame carries the handler's version and the peer
    then delivers exactly as many client keys as the frame announced, the
    trustee holds, for each client in order, the client's public key and the
    Diffie-Hellman secret it shares with that client: the client's key
    multiplied by the trustee's private key.  The private key is drawn from
    the name "Trustee-" followed by the identifier of the frame, and the
    public key is the base point multiplied by it. *)
Theorem exchange_keys_shared_secrets data rest out c2 keys c3 :
  let buffer := read_into (zeros 1024) data in
  let trusteeId := Uint32 (skipn 16 buffer) in
  let nClients := Uint32 (skipn 8 buffer) in
  let priv := Secret_Pick ("Trustee-" +:+ pretty trusteeId) in
  Uint32 buffer = LLD_PROTOCOL_VERSION ->
  TellPublicKey LLD_PROTOCOL_VERSION (Point_Mul Point_Base priv)
    {| incoming := rest; done := out |} = (inl tt, c2) ->
  UnMarshalPublicKeyArrayFromConnection c2 = (inl keys, c3) ->
  length keys = Z.to_nat nClients ->
  exists st,
    exchange_keys {| incoming := ReadOk data :: rest; done := out |}
      = (inl (buffer, st), c3)
    /\ privateKey st = priv
    /\ PublicKey st = Point_Mul Point_Base priv
    /\ ClientPublicKeys st = map Some keys
    /\ sharedSecrets st = map (fun key => Some (Point_Mul key priv)) keys.
Proof.
  intros buffer trusteeId nClients priv Hver Htell Hkeys Hlen.
  rewrite (exchange_keys_hello _ _ _ Hver). cbn zeta.
  fold buffer. fold trusteeId. fold nClients.
  set (st0 := initiateTrusteeState trusteeId nClients
                (Uint32 (skipn 12 buffer)) (Uint32 (skipn 4 buffer))).
  change (PublicKey st0) with (Point_Mul Point_Base priv).
  rewrite (hbind_eq _ _ _ _ _ Htell), (hbind_eq _ _ _ _ _ Hkeys).
  destruct (store_keys_ok st0 0 keys c3) as (st & Hrun & Hcpk & Hsec & Hpriv & Hpub).
  { cbn [ClientPublicKeys st0 initiateTrusteeState]. rewrite length_replicate. lia. }
  { cbn [ClientPublicKeys sharedSecrets st0 initiateTrusteeState].
    rewrite !length_replicate. reflexivity. }
  cbn [ClientPublicKeys sharedSecrets privateKey PublicKey st0
       initiateTrusteeState] in Hcpk, Hsec, Hpriv, Hpub.
  rewrite drop_ge, app_nil_r in Hcpk by (rewrite length_replicate; lia).
  rewrite drop_ge, app_nil_r in Hsec by (rewrite length_replicate; lia).
  change (take 0 (replicate (Z.to_nat nClients) (@None Point)))
    with (@nil (option Point)) in Hcpk, Hsec.
  cbn [app] in Hcpk, Hsec.
  rewrite (hbind_eq _ _ _ _ _ Hrun).
  rewrite Hcpk, forallb_not_nil_Some. cbn [negb].
  exists st. repeat split; assumption.
Qed.

(** X15. When the peer delivers more client keys than the first frame
    announced, the handler panics on an index out of range while it stores
    them, and the connection is closed; nothing is read from it any more. *)
Theorem handleConnection_too_many_keys data rest out c2 keys c3 :
  let buffer := read_into (zeros 1024) data in
  let trusteeId := Uint32 (skipn 16 buffer) in
  let nClients := Uint32 (skipn 8 buffer) in
  let priv := Secret_Pick ("Trustee-" +:+ pretty trusteeId) in
  Uint32 buffer = LLD_PROTOCOL_VERSION ->
  TellPublicKey LLD_PROTOCOL_VERSION (Point_Mul Point_Base priv)
    {| incoming := rest; done := out |} = (inl tt, c2) ->
  UnMarshalPublicKeyArrayFromConnection c2 = (inl keys, c3) ->
  (Z.to_nat nClients < length keys)%nat ->
  handleConnection {| incoming := ReadOk data :: rest; done := out |}
  = (Panicked "index out of range",
     {| incoming := incoming c3; done := done c3 ++ [EvClose] |}).
Proof.
  intros buffer trusteeId nClients priv Hver Htell Hkeys Hmore.
  unfold handleConnection, handleConnection_body.
  assert (Hex : exchange_keys {| incoming := ReadOk data :: rest; done := out |}
                = (inr (Panicked "index out of range"), c3)).
  { rewrite (exchange_keys_hello _ _ _ Hver). cbn zeta.
    fold buffer. fold trusteeId. fold nClients.
    set (st0 := initiateTrusteeState trusteeId nClients
                  (Uint32 (skipn 12 buffer)) (Uint32 (skipn 4 buffer))).
    change (PublicKey st0) with (Point_Mul Point_Base priv).
    rewrite (hbind_eq _ _ _ _ _ Htell), (hbind_eq _ _ _ _ _ Hkeys).
    apply hbind_stop. apply store_keys_overflow.
    - lia.
    - cbn [ClientPublicKeys st0 initiateTrusteeState].
      rewrite length_replicate. lia. }
  unfold mbind, Handler_bind, hbind. rewrite Hex. reflexivity.
Qed.

(** X16. The two reads of the handler take a failure differently.  When the
    first read fails, or the peer has closed the connection before sending
    anything, the handler returns.  When the read of the shuffle request
    fails, or the peer has closed the connection after the exchange of keys,
    the handler panics.  Either way the connection is closed and nothing more
    is written to it or read from it. *)
Theorem handleConnection_read_failures :
  (forall rest out,
     handleConnection {| incoming := ReadErr :: rest; done := out |}
       = (Returned, {| incoming := rest; done := out ++ [EvClose] |})
     /\ handleConnection {| incoming := []; done := out |}
        = (Returned, {| incoming := []; done := out ++ [EvClose] |}))
  /\ (forall c0 buffer st c1,
        exchange_keys c0 = (inl (buffer, st), c1) ->
        hd ReadErr (incoming c1) = ReadErr ->
        exists msg,
          handleConnection c0
          = (Panicked msg,
             {| incoming := tl (incoming c1); done := done c1 ++ [EvClose] |})).
Proof.
  split; [intros rest out; split; reflexivity|].
  intros c0 buffer st c1 Hex Hread.
  unfold handleConnection, handleConnection_body.
  rewrite (hbind_eq _ _ _ _ _ Hex). unfold answer_shuffle.
  destruct c1 as [inc out]. cbn [incoming done] in *.
  destruct inc as [|[request|] rest]; cbn [hd] in Hread; try discriminate;
    eexists; reflexivity.
Qed.

(** X17. A shuffle request whose declared lengths of base and keys reach
    beyond the 1024 bytes of the buffer makes the handler panic on a slice
    out of bounds; the connection is closed and no answer was written. *)
Theorem handleConnection_oversized_shuffle_request c0 buffer st request rest out :
  let buffer' := read_into buffer request in
  let baseSize := Uint32 buffer' in
  let keysSize := Uint32 (skipn (Z.to_nat (4 + baseSize)) buffer') in
  exchange_keys c0
    = (inl (buffer, st), {| incoming := ReadOk request :: rest; done := out |}) ->
  1024 < 8 + baseSize + keysSize ->
  handleConnection c0
  = (Panicked "slice bounds out of range",
     {| incoming := rest; done := out ++ [EvClose] |}).
Proof.
  intros buffer' baseSize keysSize Hex Hsize.
  pose proof (exchange_keys_buffer _ _ _ _ Hex) as Hbuf.
  assert (Hbuf' : Z.of_nat (length buffer') = 1024).
  { unfold buffer'. rewrite length_read_into, Hbuf. reflexivity. }
  assert (Hbase : 0 <= baseSize).
  { unfold baseSize, Uint32.
    pose proof (be_decode_nonneg (firstn 4 buffer')). lia. }
  unfold handleConnection, handleConnection_body.
  rewrite (hbind_eq _ _ _ _ _ Hex). unfold answer_shuffle.
  rewrite (hbind_eq _ _ _ _ _ (conn_Read_ok _ _ _ _)). cbn [negb].
  fold buffer'.
  rewrite (hbind_eq _ _ _ _ _
             (slice_word buffer' 0 4 _ ltac:(lia) eq_refl ltac:(lia))).
  change (Z.to_nat 0) with 0%nat. change (skipn 0 buffer') with buffer'.
  fold baseSize.
  destruct (Z.lt_ge_cases 1024 (8 + baseSize)) as [Hfar|Hnear].
  - rewrite (hbind_stop _ _ _ _ _
               (fmap_stop Uint32 _ _ _ _
                  (slice_out buffer' (4 + baseSize) (8 + baseSize) _ ltac:(lia)))).
    reflexivity.
  - rewrite (hbind_eq _ _ _ _ _
               (slice_word buffer' (4 + baseSize) (8 + baseSize) _
                  ltac:(lia) ltac:(lia) ltac:(lia))).
    fold keysSize.
    rewrite (hbind_eq _ _ _ _ _
               (slice_ok buffer' 4 (4 + baseSize) _ ltac:(lia) ltac:(lia) ltac:(lia))).
    rewrite (hbind_stop _ _ _ _ _
               (slice_out buffer' (8 + baseSize) (8 + baseSize + keysSize) _
                  ltac:(lia))).
    reflexivity.
Qed.

(** X13. The handler does not check the length of the first frame: a frame
    that holds the version and nothing else is taken as the frame of
    trustee 0 with no clients, no trustees and cells of no bytes, and with
    no client keys delivered the exchange of keys succeeds. *)
Theorem exchange_keys_version_only_frame data rest out c2 c3 :
  let buffer := read_into (zeros 1024) data in
  length data = 4%nat ->
  Uint32 buffer = LLD_PROTOCOL_VERSION ->
  TellPublicKey LLD_PROTOCOL_VERSION
    (Point_Mul Point_Base (Secret_Pick "Trustee-0"))
    {| incoming := rest; done := out |} = (inl tt, c2) ->
  UnMarshalPublicKeyArrayFromConnection c2 = (inl [], c3) ->
  exchange_keys {| incoming := ReadOk data :: rest; done := out |}
  = (inl (buffer, initiateTrusteeState 0 0 0 0), c3)
  /\ Name (initiateTrusteeState 0 0 0 0) = "Trustee-0"
  /\ ClientPublicKeys (initiateTrusteeState 0 0 0 0) = [].
Proof.
  intros buffer Hlen Hver Htell Hkeys.
  rewrite (exchange_keys_hello _ _ _ Hver). cbn zeta. fold buffer.
  unfold buffer.
  rewrite !field_beyond_frame by lia.
  change (PublicKey (initiateTrusteeState 0 0 0 0))
    with (Point_Mul Point_Base (Secret_Pick "Trustee-0")).
  rewrite (hbind_eq _ _ _ _ _ Htell), (hbind_eq _ _ _ _ _ Hkeys).
  repeat split; reflexivity.
Qed.

(** *** The reader of the connection *)

Lemma trusteeConnRead_EOFs state k :
  trusteeConnRead state (repeat {| delivered := []; err := Some EOF |} k)
  = (repeat (RvPrintln ("[read EOF, trustee " +:+ pretty (TrusteeId state) +:+ "]")) k,
     StillReading).
Proof.
  induction k as [|k IH]; [reflexivity|].
  cbn [repeat trusteeConnRead delivered err firstn length Nat.eqb].
  rewrite IH. reflexivity.
Qed.

Lemma trusteeConnRead_app state pre post :
  snd (trusteeConnRead state pre) = StillReading ->
  trusteeConnRead state (pre ++ post)
  = (fst (trusteeConnRead state pre) ++ fst (trusteeConnRead state post),
     snd (trusteeConnRead state post)).
Proof.
  induction pre as [|r pre IH]; intros Hpre.
  - cbn [app trusteeConnRead fst]. destruct (trusteeConnRead state post).
    reflexivity.
  - cbn [app trusteeConnRead] in *.
    destruct (length (firstn 512 (delivered r)) =? 0)%nat.
    + destruct (err r) as [[|text]|]; try discriminate Hpre.
      destruct (trusteeConnRead state pre) as [events how] eqn:E.
      cbn [snd] in Hpre. rewrite (IH Hpre). reflexivity.
    + destruct (trusteeConnRead state pre) as [events how] eqn:E.
      cbn [snd] in Hpre. rewrite (IH Hpre). reflexivity.
Qed.

(** X20. The reader [trusteeConnRead] does not stop at the end of the
    stream: while it has neither returned nor panicked, however many reads
    then report [io.EOF] without data, it prints a line for each and goes on
    reading.  It closes the connection only when it returns, and every buffer
    it sends on has 512 bytes, however few were read. *)
Theorem trusteeConnRead_goes_on_after_EOF state :
  (forall reads k,
     snd (trusteeConnRead state reads) = StillReading ->
     trusteeConnRead state
       (reads ++ repeat {| delivered := []; err := Some EOF |} k)
     = (fst (trusteeConnRead state reads)
          ++ repeat (RvPrintln ("[read EOF, trustee "
                                +:+ pretty (TrusteeId state) +:+ "]")) k,
        StillReading))
  /\ (forall reads,
        In RvClose (fst (trusteeConnRead state reads)) ->
        snd (trusteeConnRead state reads) = ReaderReturned)
  /\ (forall reads buf,
        In (RvSend buf) (fst (trusteeConnRead state reads)) ->
        length buf = 512%nat).
Proof.
  split; [|split].
  - intros reads k Hreads.
    rewrite (trusteeConnRead_app _ _ _ Hreads), trusteeConnRead_EOFs.
    reflexivity.
  - induction reads as [|r reads IH]; cbn [trusteeConnRead fst]; [intros []|].
    destruct (length (firstn 512 (delivered r)) =? 0)%nat.
    + destruct (err r) as [[|text]|].
      * destruct (trusteeConnRead state reads) as [events how].
        cbn [fst snd] in *. intros [Hin|Hin]; [discriminate Hin | exact (IH Hin)].
      * reflexivity.
      * intros [].
    + destruct (trusteeConnRead state reads) as [events how].
      cbn [fst snd] in *. intros [Hin|Hin]; [discriminate Hin | exact (IH Hin)].
  - induction reads as [|r reads IH]; intros buf; cbn [trusteeConnRead fst];
      [intros []|].
    destruct (length (firstn 512 (delivered r)) =? 0)%nat.
    + destruct (err r) as [[|text]|].
      * destruct (trusteeConnRead state reads) as [events how].
        cbn [fst] in *. intros [Hin|Hin]; [discriminate Hin | exact (IH _ Hin)].
      * intros [Hin|[Hin|[]]]; discriminate Hin.
      * intros [].
    + destruct (trusteeConnRead state reads) as [events how].
      cbn [fst] in *. intros [Hin|Hin]; [|exact (IH _ Hin)].
      injection Hin as <-. rewrite length_read_into. apply length_zeros.
Qed.

End TrusteeFacts.

(** ** Runs of the handler on the small instance *)
Module TrusteeRuns.

Import TestTrustee.

(** The version skew of the sixth end-to-end scenario: the peer sends
    version 0, the handler has version 1. *)
Lemma handleConnection_version_mismatch_witness :
  Uint32 (read_into (zeros 1024) (hello 0)) <> LLD_PROTOCOL_VERSION
  /\ handleConnection
       {| incoming := [ReadOk (hello 0); ReadOk client_keys]; done := [] |}
     = (Returned, {| incoming := [ReadOk client_keys]; done := [] ++ [EvClose] |}).
Proof.
  assert (Hver : Uint32 (read_into (zeros 1024) (hello 0)) <> LLD_PROTOCOL_VERSION)
    by (vm_compute; discriminate).
  split; [exact Hver|].
  exact (handleConnection_version_mismatch (hello 0) [ReadOk client_keys] [] Hver).
Defined.

Lemma handleConnection_shuffle_answer_witness :
  snd (handleConnection session)
  = {| incoming := [];
       done := [EvWrite (PutUint32 1 ++ PutUint32 1 ++ [byte_of_Z 16])] ++
         [EvWrite
            (PutUint32 (Z.of_nat (length [byte_of_Z 4])) ++ [byte_of_Z 4]
             ++ PutUint32 (Z.of_nat (length (keys_to_bytes [16; 8])))
             ++ keys_to_bytes [16; 8]
             ++ PutUint32 50 ++ zeros 50)] |}.
Proof.
  let r := eval vm_compute in (exchange_keys session) in
  lazymatch r with
  | (inl (?buffer, ?st), {| incoming := _; done := ?out |}) =>
      apply (@handleConnection_shuffle_answer env session buffer st
               shuffle_request [] out
               [byte_of_Z 4] [byte_of_Z 16; byte_of_Z 8] [] 4 [16; 8]
               [byte_of_Z 4])
  end.
  - reflexivity.
  - reflexivity.
  - vm_compute. lia.
  - reflexivity.
  - intros c. reflexivity.
  - reflexivity.
  - reflexivity.
Defined.

(** The same session over the network that breaks once the trustee's public
    key was written. *)
Lemma handleConnection_answer_write_fails_witness :
  @handleConnection env_broken session
  = (Panicked "invalid memory address or nil pointer dereference",
     {| incoming := [];
        done := [EvWrite (PutUint32 1 ++ PutUint32 1 ++ [byte_of_Z 16])]
                ++ [EvClose] |}).
Proof.
  let r := eval vm_compute in (@exchange_keys env_broken session) in
  lazymatch r with
  | (inl (?buffer, ?st), {| incoming := _; done := ?out |}) =>
      apply (@handleConnection_answer_write_fails env_broken session buffer st
               shuffle_request [] out
               [byte_of_Z 4] [byte_of_Z 16; byte_of_Z 8] [] 4 [16; 8]
               [byte_of_Z 4])
  end.
  - reflexivity.
  - reflexivity.
  - vm_compute. lia.
  - reflexivity.
  - intros c. reflexivity.
  - reflexivity.
  - reflexivity.
Defined.

(** C4 is not what the code does: the answer to the shuffle request repeats
    the request, base and keys, byte for byte and ends in fifty zero bytes.
    The base that comes back is the base that was sent, 4, and the only
    scalar beta below the group order with 4 ^ beta = 4 is 1: no random scalar
    was applied, and the keys 16 and 8 come back as they are and in the order
    they came. *)
Lemma shuffle_answer_repeats_request :
  handleConnection session
  = (SleepsForever,
     {| incoming := [];
        done := [EvWrite (PutUint32 1 ++ PutUint32 1 ++ [byte_of_Z 16]);
                 EvWrite (shuffle_request ++ PutUint32 50 ++ zeros 50)] |})
  /\ filter (fun beta => qr_Mul 4 beta = 4) (map Z.of_nat (seq 0 11)) = [1].
Proof. split; vm_compute; reflexivity. Qed.

(** The handshake of the session: the trustee's private key is 2, its public
    key 4 ^ 2 = 16, and the secrets it shares with the clients are
    18 ^ 2 = 2 and 12 ^ 2 = 6 modulo 23. *)
Lemma exchange_keys_shared_secrets_witness :
  exists st,
    exchange_keys session
    = (inl (read_into (zeros 1024) (hello 1), st),
       {| incoming := [ReadOk shuffle_request];
          done := [EvWrite (PutUint32 1 ++ PutUint32 1 ++ [byte_of_Z 16])] |})
    /\ privateKey st = 2
    /\ PublicKey st = 16
    /\ ClientPublicKeys st = map Some [18; 12]
    /\ sharedSecrets st = map (fun key => Some (Point_Mul key 2)) [18; 12].
Proof.
  apply (@exchange_keys_shared_secrets env (hello 1)
           [ReadOk client_keys; ReadOk shuffle_request] []
           {| incoming := [ReadOk client_keys; ReadOk shuffle_request];
              done := [EvWrite (PutUint32 1 ++ PutUint32 1 ++ [byte_of_Z 16])] |}
           [18; 12]
           {| incoming := [ReadOk shuffle_request];
              done := [EvWrite (PutUint32 1 ++ PutUint32 1 ++ [byte_of_Z 16])] |}).
  - reflexivity.
  - reflexivity.
  - reflexivity.
  - reflexivity.
Defined.

(** A first frame that announces one client, followed by two keys. *)
Lemma handleConnection_too_many_keys_witness :
  handleConnection
    {| incoming :=
         [ReadOk (PutUint32 1 ++ PutUint32 4 ++ PutUint32 1 ++ PutUint32 1
                  ++ PutUint32 0);
          ReadOk client_keys; ReadOk shuffle_request];
       done := [] |}
  = (Panicked "index out of range",
     {| incoming := [ReadOk shuffle_request];
        done := [EvWrite (PutUint32 1 ++ PutUint32 1 ++ [byte_of_Z 16])]
                ++ [EvClose] |}).
Proof.
  apply (@handleConnection_too_many_keys env
           (PutUint32 1 ++ PutUint32 4 ++ PutUint32 1 ++ PutUint32 1 ++ PutUint32 0)
           [ReadOk client_keys; ReadOk shuffle_request] []
           {| incoming := [ReadOk client_keys; ReadOk shuffle_request];
              done := [EvWrite (PutUint32 1 ++ PutUint32 1 ++ [byte_of_Z 16])] |}
           [18; 12]
           {| incoming := [ReadOk shuffle_request];
              done := [EvWrite (PutUint32 1 ++ PutUint32 1 ++ [byte_of_Z 16])] |}).
  - reflexivity.
  - reflexivity.
  - reflexivity.
  - vm_compute. lia.
Defined.

(** The peer closes the connection at once, and after the exchange of
    keys. *)
Lemma handleConnection_read_failures_witness :
  handleConnection {| incoming := []; done := [] |}
    = (Returned, {| incoming := []; done := [] ++ [EvClose] |})
  /\ exists msg,
       handleConnection
         {| incoming := [ReadOk (hello 1); ReadOk client_keys]; done := [] |}
       = (Panicked msg,
          {| incoming := [];
             done := [EvWrite (PutUint32 1 ++ PutUint32 1 ++ [byte_of_Z 16])]
                     ++ [EvClose] |}).
Proof.
  pose proof (@handleConnection_read_failures env) as [Hfirst Hsecond].
  split; [apply (Hfirst [] [])|].
  let r := eval vm_compute in
    (exchange_keys
       {| incoming := [ReadOk (hello 1); ReadOk client_keys]; done := [] |}) in
  lazymatch r with
  | (inl (?buffer, ?st), ?c1) =>
      apply (Hsecond
               {| incoming := [ReadOk (hello 1); ReadOk client_keys]; done := [] |}
               buffer st
               {| incoming := [];
                  done := [EvWrite (PutUint32 1 ++ PutUint32 1 ++ [byte_of_Z 16])] |})
  end.
  - reflexivity.
  - reflexivity.
Defined.

(** A shuffle request that declares a base of 2000 bytes. *)
Lemma handleConnection_oversized_shuffle_request_witness :
  handleConnection
    {| incoming := [ReadOk (hello 1); ReadOk client_keys;
                    ReadOk (PutUint32 2000 ++ [byte_of_Z 4])];
       done := [] |}
  = (Panicked "slice bounds out of range",
     {| incoming := [];
        done := [EvWrite (PutUint32 1 ++ PutUint32 1 ++ [byte_of_Z 16])]
                ++ [EvClose] |}).
Proof.
  let r := eval vm_compute in
    (exchange_keys
       {| incoming := [ReadOk (hello 1); ReadOk client_keys;
                       ReadOk (PutUint32 2000 ++ [byte_of_Z 4])];
          done := [] |}) in
  lazymatch r with
  | (inl (?buffer, ?st), _) =>
      apply (@handleConnection_oversized_shuffle_request env
               {| incoming := [ReadOk (hello 1); ReadOk client_keys;
                               ReadOk (PutUint32 2000 ++ [byte_of_Z 4])];
                  done := [] |}
               buffer st (PutUint32 2000 ++ [byte_of_Z 4]) []
               [EvWrite (PutUint32 1 ++ PutUint32 1 ++ [byte_of_Z 16])])
  end.
  - reflexivity.
  - vm_compute. reflexivity.
Defined.

(** A first frame of four bytes, the version 1, and an empty vector of
    keys. *)
Lemma exchange_keys_version_only_frame_witness :
  exchange_keys {| incoming := [ReadOk (PutUint32 1); ReadOk (PutUint32 0)];
                   done := [] |}
  = (inl (read_into (zeros 1024) (PutUint32 1), initiateTrusteeState 0 0 0 0),
     {| incoming := [];
        done := [EvWrite (PutUint32 1 ++ PutUint32 1 ++ [byte_of_Z 16])] |})
  /\ Name (initiateTrusteeState 0 0 0 0) = "Trustee-0"
  /\ ClientPublicKeys (initiateTrusteeState 0 0 0 0) = [].
Proof.
  apply (@exchange_keys_version_only_frame env (PutUint32 1)
           [ReadOk (PutUint32 0)] []
           {| incoming := [ReadOk (PutUint32 0)];
              done := [EvWrite (PutUint32 1 ++ PutUint32 1 ++ [byte_of_Z 16])] |}
           {| incoming := [];
              done := [EvWrite (PutUint32 1 ++ PutUint32 1 ++ [byte_of_Z 16])] |}).
  - reflexivity.
  - reflexivity.
  - reflexivity.
  - reflexivity.
Defined.

End TrusteeRuns.

(** ** Roles from the group file *)

(** *** Splitting and joining *)

Lemma Split_not_nil s : Split s <> [].
Proof.
  destruct s as [|c s]; cbn [Split]; [discriminate|].
  destruct (Ascii.eqb c " "%char); [discriminate|].
  destruct (Split s); discriminate.
Qed.

Lemma join_Split s : join (Split s) = s.
Proof.
  induction s as [|c s IH]; [reflexivity|]. cbn [Split].
  pose proof (Split_not_nil s) as Hne.
  destruct (Ascii.eqb_spec c " "%char) as [->|_].
  - destruct (Split s) as [|p ps]; [contradiction|].
    change (join (EmptyString :: p :: ps)) with (String " "%char (join (p :: ps))).
    rewrite IH. reflexivity.
  - destruct (Split s) as [|p ps]; [contradiction|].
    rewrite <- IH. destruct ps; reflexivity.
Qed.

Lemma Split_no_space s : no_space s = true -> Split s = [s].
Proof.
  induction s as [|c s IH]; [reflexivity|]. cbn [no_space Split].
  intros [Hc Hs]%andb_true_iff. apply negb_true_iff in Hc. rewrite Hc.
  rewrite (IH Hs). reflexivity.
Qed.

Lemma Split_app_space a b :
  no_space a = true -> Split (a +:+ " " +:+ b) = a :: Split b.
Proof.
  induction a as [|c a IH]; [reflexivity|]. cbn [no_space].
  intros [Hc Ha]%andb_true_iff. apply negb_true_iff in Hc.
  change (String c a +:+ " " +:+ b) with (String c (a +:+ " " +:+ b)).
  cbn [Split]. rewrite Hc, (IH Ha). reflexivity.
Qed.

Lemma digit_not_space c d : digit c = Some d -> Ascii.eqb c " "%char = false.
Proof.
  intros Hd. destruct (Ascii.eqb_spec c " "%char) as [->|]; [|reflexivity].
  discriminate Hd.
Qed.

Lemma digits_no_space s acc n : digits acc s = Some n -> no_space s = true.
Proof.
  revert acc. induction s as [|c s IH]; intros acc; [reflexivity|].
  cbn [digits no_space]. destruct (digit c) as [d|] eqn:Hd; [|discriminate].
  intros H. rewrite (digit_not_space c d Hd). exact (IH _ H).
Qed.

Lemma Atoi_no_space s n : Atoi s = Some n -> no_space s = true.
Proof.
  unfold Atoi. destruct s as [|c rest]; [discriminate|].
  destruct (Ascii.eqb_spec c "-"%char) as [->|Hminus]; cbn [orb].
  - destruct rest as [|c' rest']; [discriminate|].
    destruct (digits 0 (String c' rest')) as [v|] eqn:Hv; [|discriminate].
    intros _. cbn [no_space]. apply (digits_no_space _ _ _ Hv).
  - destruct (Ascii.eqb_spec c "+"%char) as [->|Hplus].
    + destruct rest as [|c' rest']; [discriminate|].
      destruct (digits 0 (String c' rest')) as [v|] eqn:Hv; [|discriminate].
      intros _. cbn [no_space]. apply (digits_no_space _ _ _ Hv).
    + destruct (digits 0 (String c rest)) as [v|] eqn:Hv; [|discriminate].
      intros _. apply (digits_no_space _ _ _ Hv).
Qed.

Lemma parseDescription_sound description id :
  parseDescription description = Ok id -> accepted description id.
Proof.
  unfold parseDescription. pose proof (join_Split description) as Hjoin.
  destruct (Split description) as [|a [|b [|c l]]]; cbn [length nth Nat.eqb andb].
  - discriminate.
  - destruct (String.eqb_spec a "relay") as [->|_]; [|discriminate].
    intros [= <-]. left. split; [symmetry; exact Hjoin | reflexivity].
  - destruct (Atoi b) as [n|] eqn:Hb; [|discriminate].
    destruct (String.eqb_spec a "client") as [->|_].
    { intros [= <-]. right. exists b, n. split; [exact Hb|]. left.
      split; [symmetry; exact Hjoin | reflexivity]. }
    destruct (String.eqb_spec a "trustee") as [->|_]; [|discriminate].
    intros [= <-]. right. exists b, n. split; [exact Hb|]. right.
    split; [symmetry; exact Hjoin | reflexivity].
  - discriminate.
Qed.

Lemma parseDescription_complete description id :
  accepted description id -> parseDescription description = Ok id.
Proof.
  intros [[-> ->]|(token & n & Htoken & [[-> ->]|[-> ->]])].
  - reflexivity.
  - unfold parseDescription.
    change ("client " +:+ token) with ("client" +:+ " " +:+ token).
    rewrite (Split_app_space "client" token eq_refl).
    rewrite (Split_no_space token (Atoi_no_space _ _ Htoken)).
    cbn [length nth Nat.eqb andb]. rewrite Htoken. reflexivity.
  - unfold parseDescription.
    change ("trustee " +:+ token) with ("trustee" +:+ " " +:+ token).
    rewrite (Split_app_space "trustee" token eq_refl).
    rewrite (Split_no_space token (Atoi_no_space _ _ Htoken)).
    cbn [length nth Nat.eqb andb]. rewrite Htoken. reflexivity.
Qed.

(** C10. [parseDescription] accepts "relay" as the relay with id 0 and
    "client n" and "trustee n" for an integer n, and nothing else: every other
    description is an error, "relay 0" among them. *)
Theorem parseDescription_accepts_exactly :
  (forall description id,
     parseDescription description = Ok id <-> accepted description id)
  /\ (forall description,
        (forall id, ~ accepted description id) ->
        exists msg, parseDescription description = Error msg)
  /\ parseDescription "relay 0" = Error "Invalid role.".
Proof.
  split; [|split].
  - intros description id. split;
      [apply parseDescription_sound | apply parseDescription_complete].
  - intros description Hno.
    destruct (parseDescription description) as [id|msg] eqn:Hp; [|eauto].
    exfalso. exact (Hno id (parseDescription_sound _ _ Hp)).
  - reflexivity.
Qed.

(** *** Counting the roles *)

Lemma fold_count_role (l : list PriFiIdentity) t c r :
  fold_left count_role l (t, c, r)
  = (t + Z.of_nat (length (filter (fun v => Role v = Trustee) l)),
     c + Z.of_nat (length (filter (fun v => Role v = Client) l)),
     r + Z.of_nat (length (filter (fun v => Role v = Relay) l))).
Proof.
  revert t c r. induction l as [|v l IH]; intros t c r.
  - cbn. rewrite !Z.add_0_r. reflexivity.
  - cbn [fold_left count_role]. rewrite !filter_cons.
    destruct (Role v); rewrite IH;
      repeat (destruct (decide _) as [?|?]; try congruence);
      cbn [length];
      repeat match goal with |- (_, _) = (_, _) => f_equal end; lia.
Qed.

Lemma count_roles_spec m :
  count_roles m
  = (Z.of_nat (role_count Trustee m), Z.of_nat (role_count Client m),
     Z.of_nat (role_count Relay m)).
Proof. unfold count_roles, role_count. rewrite fold_count_role. reflexivity. Qed.

(** C8. [mapIdentities] returns the role assignment it parsed exactly when
    that assignment has one relay, at least one client and at least one
    trustee; with any other counts it ends the process through [log.Fatal]. *)
Theorem mapIdentities_requires_one_relay_a_client_a_trustee group :
  let m := fst (assign_roles group) in
  let counts_ok :=
    role_count Relay m = 1%nat
    /\ (1 <= role_count Client m)%nat /\ (1 <= role_count Trustee m)%nat in
  (mapIdentities group = Ret (assign_roles group) <-> counts_ok)
  /\ (~ counts_ok -> exists msg, mapIdentities group = Fatal msg).
Proof.
  intros m counts_ok. subst m counts_ok. unfold mapIdentities.
  destruct (assign_roles group) as [m relay]. cbn [fst].
  rewrite count_roles_spec.
  destruct ((0 <? Z.of_nat (role_count Trustee m))
            && (0 <? Z.of_nat (role_count Client m))
            && (Z.of_nat (role_count Relay m) =? 1)) eqn:E; cbn [negb].
  - apply andb_true_iff in E as [[Ht Hc]%andb_true_iff Hr].
    apply Z.ltb_lt in Ht, Hc. apply Z.eqb_eq in Hr.
    split; [split; [intros _; lia | reflexivity]|].
    intros Hno. exfalso. apply Hno. lia.
  - split; [split; [discriminate|]|eauto].
    intros (Hr & Hc & Ht). exfalso.
    apply not_true_iff_false in E. apply E.
    rewrite !andb_true_iff, !Z.ltb_lt, Z.eqb_eq. lia.
Qed.

(** *** Which node gives an address its role *)

Lemma snoc_eq_split {A} (l l1 l2 : list A) (x si : A) :
  l ++ [x] = l1 ++ si :: l2 ->
  (l2 = [] /\ l = l1 /\ x = si)
  \/ exists l2', l2 = l2' ++ [x] /\ l = l1 ++ si :: l2'.
Proof.
  destruct l2 as [|y l2' _] using rev_ind; intros E.
  - left. apply app_inj_tail in E as [-> ->]. auto.
  - right. exists l2'.
    change (l1 ++ si :: l2' ++ [y]) with (l1 ++ (si :: l2') ++ [y]) in E.
    rewrite app_assoc in E. apply app_inj_tail in E as [-> ->]. auto.
Qed.

Lemma assign_roles_snoc group l x init :
  fold_left (assign_role group) (l ++ [x]) init
  = assign_role group (fold_left (assign_role group) l init) x.
Proof. rewrite fold_left_app. reflexivity. Qed.

(** The map after the first loop has run over the nodes [l]. *)
Lemma assign_fold_lookup group (l : list ServerIdentity) relay0 a id :
  fst (fold_left (assign_role group) l (∅, relay0)) !! a = Some id
  <-> exists l1 si l2,
        l = l1 ++ si :: l2 /\ Address si = a
        /\ parseDescription (GetDescription group si) = Ok id
        /\ forall sj, In sj l2 -> Address sj = a ->
             exists msg, parseDescription (GetDescription group sj) = Error msg.
Proof.
  revert a id. induction l as [|x l IH] using rev_ind; intros a id.
  - cbn [fold_left fst]. rewrite lookup_empty. split; [discriminate|].
    intros (l1 & si & l2 & E & _). destruct l1; discriminate E.
  - rewrite assign_roles_snoc.
    destruct (fold_left (assign_role group) l (∅, relay0)) as [m relay] eqn:Ef.
    cbn [fst] in IH. unfold assign_role.
    destruct (parseDescription (GetDescription group x)) as [idx|msg] eqn:Hx;
      cbn [fst].
    + destruct (decide (Address x = a)) as [Ha|Ha].
      * subst a. rewrite lookup_insert_eq. split.
        -- intros [= <-]. exists l, x, []. repeat split; auto.
           intros sj [].
        -- intros (l1 & si & l2 & E & Hsi & Hp & Hlater).
           apply snoc_eq_split in E as [(-> & -> & ->)|(l2' & -> & ->)].
           ++ congruence.
           ++ destruct (Hlater x) as [msg Hmsg];
                [apply in_or_app; right; left; reflexivity | reflexivity |].
              congruence.
      * rewrite lookup_insert_ne by exact Ha. rewrite IH. split.
        -- intros (l1 & si & l2 & -> & Hsi & Hp & Hlater).
           exists l1, si, (l2 ++ [x]). rewrite <- app_assoc. repeat split; auto.
           intros sj [Hin|[<-|[]]]%in_app_or Hsj; [eauto | contradiction].
        -- intros (l1 & si & l2 & E & Hsi & Hp & Hlater).
           apply snoc_eq_split in E as [(-> & -> & ->)|(l2' & -> & ->)];
             [contradiction|].
           exists l1, si, l2'. repeat split; auto.
           intros sj Hin. apply Hlater, in_or_app. left. exact Hin.
    + cbn [fst]. rewrite IH. split.
      * intros (l1 & si & l2 & -> & Hsi & Hp & Hlater).
        exists l1, si, (l2 ++ [x]). rewrite <- app_assoc. repeat split; auto.
        intros sj [Hin|[<-|[]]]%in_app_or Hsj; eauto.
      * intros (l1 & si & l2 & E & Hsi & Hp & Hlater).
        apply snoc_eq_split in E as [(-> & -> & ->)|(l2' & -> & ->)];
          [congruence|].
        exists l1, si, l2'. repeat split; auto.
        intros sj Hin. apply Hlater, in_or_app. left. exact Hin.
Qed.

(** The relay after the first loop has run over the nodes [l]: the last node
    that parses as the relay, if there is one. *)
Lemma assign_fold_relay group (l : list ServerIdentity) relay0 :
  let relay := snd (fold_left (assign_role group) l (∅, relay0)) in
  (exists l1 l2 id,
     l = l1 ++ relay :: l2
     /\ parseDescription (GetDescription group relay) = Ok id
     /\ Role id = Relay
     /\ forall sj id', In sj l2 ->
          parseDescription (GetDescription group sj) = Ok id' ->
          Role id' <> Relay)
  \/ (forall sj id', In sj l ->
        parseDescription (GetDescription group sj) = Ok id' -> Role id' <> Relay).
Proof.
  induction l as [|x l IH] using rev_ind; cbn zeta.
  - right. intros sj id' [].
  - rewrite assign_roles_snoc. cbn zeta in IH.
    destruct (fold_left (assign_role group) l (∅, relay0)) as [m relay] eqn:Ef.
    cbn [snd] in IH. unfold assign_role.
    destruct (parseDescription (GetDescription group x)) as [idx|msg] eqn:Hx.
    + destruct (Role idx) eqn:Hrole; cbn [snd].
      * left. exists l, [], idx. repeat split; auto.
      * destruct IH as [(l1 & l2 & id & -> & Hp & Hr & Hlater)|Hnone].
        -- left. exists l1, (l2 ++ [x]), id. rewrite <- app_assoc.
           repeat split; auto.
           intros sj id' [Hin|[<-|[]]]%in_app_or Hsj; [eauto|].
           congruence.
        -- right. intros sj id' [Hin|[<-|[]]]%in_app_or Hsj; [eauto|].
           congruence.
      * destruct IH as [(l1 & l2 & id & -> & Hp & Hr & Hlater)|Hnone].
        -- left. exists l1, (l2 ++ [x]), id. rewrite <- app_assoc.
           repeat split; auto.
           intros sj id' [Hin|[<-|[]]]%in_app_or Hsj; [eauto|].
           congruence.
        -- right. intros sj id' [Hin|[<-|[]]]%in_app_or Hsj; [eauto|].
           congruence.
    + cbn [snd].
      destruct IH as [(l1 & l2 & id & -> & Hp & Hr & Hlater)|Hnone].
      * left. exists l1, (l2 ++ [x]), id. rewrite <- app_assoc.
        repeat split; auto.
        intros sj id' [Hin|[<-|[]]]%in_app_or Hsj; [eauto|].
        congruence.
      * right. intros sj id' [Hin|[<-|[]]]%in_app_or Hsj; [eauto|].
        congruence.
Qed.

Lemma mapIdentities_Ret group m relay :
  mapIdentities group = Ret (m, relay) ->
  assign_roles group = (m, relay)
  /\ role_count Relay m = 1%nat
  /\ (1 <= role_count Client m)%nat /\ (1 <= role_count Trustee m)%nat.
Proof.
  unfold mapIdentities. destruct (assign_roles group) as [m' relay'].
  rewrite count_roles_spec.
  destruct ((0 <? Z.of_nat (role_count Trustee m'))
            && (0 <? Z.of_nat (role_count Client m'))
            && (Z.of_nat (role_count Relay m') =? 1)) eqn:E; cbn [negb];
    [|discriminate].
  intros [= <- <-].
  apply andb_true_iff in E as [[Ht Hc]%andb_true_iff Hr].
  apply Z.ltb_lt in Ht, Hc. apply Z.eqb_eq in Hr.
  repeat split; lia.
Qed.

(** X11. The assignment [mapIdentities] returns gives an address the role of
    the last node of the roster with that address whose description parses,
    and gives no role to any other address. *)
Theorem mapIdentities_last_parsable_node_wins group m relay :
  mapIdentities group = Ret (m, relay) ->
  forall a id,
    m !! a = Some id
    <-> exists si, Address si = a /\ gives_role group si id.
Proof.
  intros [Ha _]%mapIdentities_Ret a id.
  unfold assign_roles in Ha.
  pose proof (assign_fold_lookup group (Roster group)
                {| Address := EmptyString; Public := 0 |} a id) as H.
  rewrite Ha in H. cbn [fst] in H. rewrite H. unfold gives_role. split.
  - intros (l1 & si & l2 & E & Hsi & Hp & Hlater).
    exists si. split; [exact Hsi|]. exists l1, l2. repeat split; auto.
    intros sj Hin Hsj. apply Hlater; congruence.
  - intros (si & Hsi & l1 & l2 & E & Hp & Hlater).
    exists l1, si, l2. repeat split; auto.
    intros sj Hin Hsj. apply Hlater; congruence.
Qed.

Lemma role_count_insert role (m : gmap string PriFiIdentity) a id :
  m !! a = None ->
  role_count role (<[a := id]> m)
  = ((if decide (Role id = role) then 1 else 0) + role_count role m)%nat.
Proof.
  intros Hm. unfold role_count.
  rewrite (map_to_list_insert m a id Hm). cbn [fmap list_fmap snd].
  rewrite filter_cons. destruct (decide (Role id = role)); reflexivity.
Qed.

Lemma role_count_lookup role (m : gmap string PriFiIdentity) a id :
  m !! a = Some id -> Role id = role ->
  role_count role m = S (role_count role (delete a m)).
Proof.
  intros Hm Hr.
  rewrite <- (insert_delete_id m a id Hm) at 1.
  rewrite role_count_insert by apply lookup_delete_eq.
  destruct (decide (Role id = role)); [reflexivity | contradiction].
Qed.

Lemma role_count_one_unique role (m : gmap string PriFiIdentity) a b ida idb :
  role_count role m = 1%nat ->
  m !! a = Some ida -> Role ida = role ->
  m !! b = Some idb -> Role idb = role ->
  a = b.
Proof.
  intros H1 Ha Hra Hb Hrb.
  destruct (decide (a = b)) as [|Hne]; [assumption|exfalso].
  rewrite (role_count_lookup role m a ida Ha Hra) in H1.
  assert (Hb' : delete a m !! b = Some idb)
    by (rewrite lookup_delete_ne by exact Hne; exact Hb).
  rewrite (role_count_lookup role _ b idb Hb' Hrb) in H1. lia.
Qed.

Lemma role_count_pos role (m : gmap string PriFiIdentity) :
  (1 <= role_count role m)%nat ->
  exists a id, m !! a = Some id /\ Role id = role.
Proof.
  unfold role_count. intros Hc.
  destruct (filter (fun v => Role v = role) (snd <$> map_to_list m))
    as [|v vs] eqn:E; [cbn in Hc; lia|].
  assert (Hv : v ∈ filter (fun v => Role v = role) (snd <$> map_to_list m))
    by (rewrite E; left).
  apply list_elem_of_filter in Hv as [Hr Hv].
  apply list_elem_of_fmap in Hv as ([a id] & -> & Hin).
  apply elem_of_map_to_list in Hin. exists a, id. auto.
Qed.

Lemma parseDescription_relay description id :
  parseDescription description = Ok id -> Role id = Relay ->
  description = "relay" /\ id = {| Role := Relay; Id := 0 |}.
Proof.
  intros Hp Hr. apply parseDescription_sound in Hp.
  destruct Hp as [[-> ->]|(token & n & _ & [[_ ->]|[_ ->]])];
    [auto | discriminate Hr | discriminate Hr].
Qed.

(** X12. When the addresses of the roster are pairwise distinct and
    [mapIdentities] returns, the server identity it returns as the relay is
    a node of the roster whose description is "relay", the assignment gives
    its address the role of the relay, and gives that role to no other
    address. *)
Theorem mapIdentities_relay_is_the_mapped_relay group m relay :
  mapIdentities group = Ret (m, relay) ->
  NoDup (map Address (Roster group)) ->
  In relay (Roster group)
  /\ GetDescription group relay = "relay"
  /\ m !! Address relay = Some {| Role := Relay; Id := 0 |}
  /\ forall a id, m !! a = Some id -> Role id = Relay -> a = Address relay.
Proof.
  intros Hret Hnodup.
  pose proof (mapIdentities_Ret _ _ _ Hret) as (Ha & Hr & _ & _).
  unfold assign_roles in Ha.
  pose proof (assign_fold_relay group (Roster group)
                {| Address := EmptyString; Public := 0 |}) as Hrelay.
  cbn zeta in Hrelay. rewrite Ha in Hrelay. cbn [snd] in Hrelay.
  destruct (role_count_pos Relay m ltac:(lia)) as (a0 & id0 & Hm0 & Hr0).
  pose proof (assign_fold_lookup group (Roster group)
                {| Address := EmptyString; Public := 0 |}) as Hlookup.
  rewrite Ha in Hlookup. cbn [fst] in Hlookup.
  destruct Hrelay as [(l1 & l2 & id & E & Hp & Hrole & _)|Hnone].
  2: { apply Hlookup in Hm0 as (l1 & si & l2 & E & _ & Hp & _).
       exfalso. apply (Hnone si id0); [|exact Hp|exact Hr0].
       rewrite E. apply in_or_app. right. left. reflexivity. }
  destruct (parseDescription_relay _ _ Hp Hrole) as [Hdesc ->].
  assert (Hm : m !! Address relay = Some {| Role := Relay; Id := 0 |}).
  { apply Hlookup. exists l1, relay, l2. repeat split; auto.
    intros sj Hin Hsj. exfalso.
    rewrite E, map_app in Hnodup. cbn [map] in Hnodup.
    apply NoDup_app in Hnodup as (_ & _ & Hnd).
    apply NoDup_cons in Hnd as [Hnotin _]. apply Hnotin.
    apply list_elem_of_In. rewrite <- Hsj. apply in_map. exact Hin. }
  repeat split.
  - rewrite E. apply in_or_app. right. left. reflexivity.
  - exact Hdesc.
  - exact Hm.
  - intros a id' Hma Hra.
    exact (role_count_one_unique Relay m a (Address relay) id' _ Hr Hma Hra Hm eq_refl).
Qed.

(** ** Runs of [mapIdentities] *)
Module RosterRuns.

Import TestRoster.

Example one_of_each :
  mapIdentities
    (group_of [("10.0.0.1:7000", "relay"); ("10.0.0.2:7000", "client 0");
               ("10.0.0.3:7000", "trustee 0"); ("10.0.0.4:7000", "observer")])
  = Ret (<["10.0.0.1:7000" := {| Role := Relay; Id := 0 |}]>
           (<["10.0.0.2:7000" := {| Role := Client; Id := 0 |}]>
              (<["10.0.0.3:7000" := {| Role := Trustee; Id := 0 |}]> ∅)),
         node "10.0.0.1:7000").
Proof. vm_compute. reflexivity. Qed.

Example two_relays :
  mapIdentities
    (group_of [("10.0.0.1:7000", "relay"); ("10.0.0.5:7000", "relay");
               ("10.0.0.2:7000", "client 0"); ("10.0.0.3:7000", "trustee 0")])
  = Fatal "Config file does not contain exactly one relay and at least one trustee and client.".
Proof. vm_compute. reflexivity. Qed.

Example no_trustee :
  mapIdentities
    (group_of [("10.0.0.1:7000", "relay"); ("10.0.0.2:7000", "client 0");
               ("10.0.0.3:7000", "trustee")])
  = Fatal "Config file does not contain exactly one relay and at least one trustee and client.".
Proof. vm_compute. reflexivity. Qed.

Lemma mapIdentities_last_parsable_node_wins_witness :
  let group :=
    group_of [("10.0.0.1:7000", "relay"); ("10.0.0.2:7000", "client 0");
              ("10.0.0.3:7000", "trustee 0"); ("10.0.0.4:7000", "observer")] in
  let m : gmap string PriFiIdentity :=
    <["10.0.0.1:7000" := {| Role := Relay; Id := 0 |}]>
      (<["10.0.0.2:7000" := {| Role := Client; Id := 0 |}]>
         (<["10.0.0.3:7000" := {| Role := Trustee; Id := 0 |}]> ∅)) in
  mapIdentities group = Ret (m, node "10.0.0.1:7000")
  /\ (m !! "10.0.0.2:7000" = Some {| Role := Client; Id := 0 |}
      <-> exists si,
            Address si = "10.0.0.2:7000"
            /\ gives_role group si {| Role := Client; Id := 0 |}).
Proof.
  split; [exact one_of_each|].
  exact (mapIdentities_last_parsable_node_wins _ _ _ one_of_each
           "10.0.0.2:7000" {| Role := Client; Id := 0 |}).
Defined.

Lemma mapIdentities_relay_is_the_mapped_relay_witness :
  let group :=
    group_of [("10.0.0.1:7000", "relay"); ("10.0.0.2:7000", "client 0");
              ("10.0.0.3:7000", "trustee 0"); ("10.0.0.4:7000", "observer")] in
  let m : gmap string PriFiIdentity :=
    <["10.0.0.1:7000" := {| Role := Relay; Id := 0 |}]>
      (<["10.0.0.2:7000" := {| Role := Client; Id := 0 |}]>
         (<["10.0.0.3:7000" := {| Role := Trustee; Id := 0 |}]> ∅)) in
  mapIdentities group = Ret (m, node "10.0.0.1:7000")
  /\ NoDup (map Address (Roster group))
  /\ In (node "10.0.0.1:7000") (Roster group)
  /\ GetDescription group (node "10.0.0.1:7000") = "relay"
  /\ m !! Address (node "10.0.0.1:7000") = Some {| Role := Relay; Id := 0 |}.
Proof.
  assert (Hnodup : NoDup (map Address (Roster
            (group_of [("10.0.0.1:7000", "relay"); ("10.0.0.2:7000", "client 0");
                       ("10.0.0.3:7000", "trustee 0");
                       ("10.0.0.4:7000", "observer")])))).
  { apply (bool_decide_unpack (NoDup _)). vm_compute. exact I. }
  pose proof (mapIdentities_relay_is_the_mapped_relay _ _ _ one_of_each
                Hnodup) as (Hin & Hdesc & Hm & _).
  repeat split; assumption || exact one_of_each.
Defined.

(** With two nodes at one address the relay that is returned need not be
    the address that the assignment calls the relay: here the relay returned
    is the node at 10.0.0.5:7000, which the assignment calls a client. *)
Example shared_address_relay_is_mapped_client :
  exists m relay,
    mapIdentities shared_address = Ret (m, relay)
    /\ Address relay = "10.0.0.5:7000"
    /\ m !! Address relay = Some {| Role := Client; Id := 0 |}
    /\ m !! "10.0.0.1:7000" = Some {| Role := Relay; Id := 0 |}.
Proof.
  exists (<["10.0.0.1:7000" := {| Role := Relay; Id := 0 |}]>
            (<["10.0.0.5:7000" := {| Role := Client; Id := 0 |}]>
               (<["10.0.0.3:7000" := {| Role := Trustee; Id := 0 |}]> ∅))),
    {| Address := "10.0.0.5:7000"; Public := 2 |}.
  vm_compute. repeat split.
Qed.

End RosterRuns.
